(** * newick.py: parsing, serialising and walking Newick trees

    A shallow embedding of [src/newick.py].  The parser and the serialiser
    are pure functions over immutable text and are modelled on tree values;
    the two traversals depend on object identity ([id(node)]) and on which
    list objects are mutated, so they are modelled over an explicit store of
    Python objects.  The parser and the default walk are recursive in the
    source: the functions that call Python functions take the room that the
    interpreter's stack has left, and raise [RecursionError] where the
    interpreter does. *)

From Stdlib Require Import NArith ZArith Ascii Lia.
From stdpp Require Import base option list gmap strings.

Set Warnings "-register-all,-clear-no-such-hyp".

(** ** Python text

    A Python [str] is a sequence of Unicode code points.  The module
    declares [unicode_literals] and reads files through [io.open], so text is
    Unicode text throughout. *)

Definition char := N.
Definition str := list char.

Definition ord (c : ascii) : char := N_of_ascii c.

(** [text "abc"] is the Python literal ['abc']. *)
Definition text (s : string) : str := ord <$> String.list_ascii_of_string s.

Arguments ord : simpl never.
Arguments text : simpl never.

(** [c.isspace()]: the code points Python treats as white space. *)
Definition isspace (c : char) : bool :=
  ((9 <=? c) && (c <=? 13) || (28 <=? c) && (c <=? 32)
   || (c =? 133) || (c =? 160) || (c =? 5760)
   || (8192 <=? c) && (c <=? 8202)
   || (c =? 8232) || (c =? 8233) || (c =? 8239) || (c =? 8287)
   || (c =? 12288))%N.

Fixpoint lstrip (s : str) : str :=
  match s with
  | c :: s' => if isspace c then lstrip s' else s
  | [] => []
  end.

Definition rstrip (s : str) : str := reverse (lstrip (reverse s)).

(** [s.strip()] *)
Definition strip (s : str) : str := rstrip (lstrip s).

(** [c in s] for a one-character [c] *)
Definition contains (c : char) (s : str) : bool := existsb (N.eqb c) s.

(** Truth value of a text: the empty text is false. *)
Definition truthy (s : str) : bool :=
  match s with [] => false | _ => true end.

(** [x and c in x] where [x] is [None] or a text *)
Definition and_contains (x : option str) (c : char) : bool :=
  match x with
  | None => false
  | Some s => truthy s && contains c s
  end.

(** [s or None] *)
Definition or_None (s : str) : option str :=
  if truthy s then Some s else None.

(** Puts [c] in front of the first part of a split. *)
Definition cons_first (c : char) (parts : list str) : list str :=
  match parts with
  | p :: ps => (c :: p) :: ps
  | [] => [[c]]
  end.

(** [s.split(sep)] for a one-character separator *)
Fixpoint split (sep : char) (s : str) : list str :=
  match s with
  | [] => [[]]
  | c :: s' =>
      if (c =? sep)%N then [] :: split sep s'
      else cons_first c (split sep s')
  end.

(** [s.split(sep, maxsplit)] for a one-character separator *)
Fixpoint splitn (sep : char) (s : str) (maxsplit : nat) : list str :=
  match s with
  | [] => [[]]
  | c :: s' =>
      match maxsplit with
      | O => [s]
      | S m =>
          if (c =? sep)%N then [] :: splitn sep s' m
          else cons_first c (splitn sep s' maxsplit)
      end
  end.

(** [sep.join(parts)] *)
Fixpoint join (sep : str) (parts : list str) : str :=
  match parts with
  | [] => []
  | [p] => p
  | p :: ps => p ++ sep ++ join sep ps
  end.

(** [s.startswith(prefix)] *)
Fixpoint startswith (s prefix : str) {struct prefix} : bool :=
  match prefix, s with
  | [], _ => true
  | p :: prefix', c :: s' => (c =? p)%N && startswith s' prefix'
  | _ :: _, [] => false
  end.

Arguments startswith : simpl never.

(** [parts[:-1]] and [parts[-1]] of a list that is never empty here *)
Definition but_last {A} (l : list A) : list A := take (List.length l - 1) l.
Definition last_part (l : list str) : str := default [] (last l).

(** ** Exceptions and results

    Both failures that the module raises itself are [ValueError]s, told
    apart by their message.  [RecursionError] is what the interpreter raises
    when a call finds its stack full ([RuntimeError] before Python 3.5).
    [OutOfFuel] is not a Python outcome: it marks a run of the model of the
    [while] loop of [_postorder] that was given too little fuel; [walk] is
    proved never to produce it ([walk_ends] below), and the parser and the
    default walk recurse on the stack room and have no fuel. *)

Inductive exn : Type :=
  | ValueError (msg : str)
  | KeyError (key : positive)
  | IndexError
  | AttributeError
  | RecursionError.

Inductive result (A : Type) : Type :=
  | Return (a : A)
  | Raise (e : exn)
  | OutOfFuel.
Arguments Return {A} a.
Arguments Raise {A} e.
Arguments OutOfFuel {A}.

Definition bind {A B} (m : result A) (k : A -> result B) : result B :=
  match m with
  | Return a => k a
  | Raise e => Raise e
  | OutOfFuel => OutOfFuel
  end.

Notation "x <- m ;; k" := (bind m (fun x => k))
  (at level 100, m at next level, right associativity).

(** ** The interpreter's stack

    The interpreter bounds the depth of its stack
    ([sys.getrecursionlimit()], 1000 frames unless it is changed).  The call
    of a Python function and the resumption of a generator take one frame
    each, for as long as they run; one that finds no frame left raises
    [RecursionError].  The methods of [str], [list] and [dict] and the
    built-in [list] are not Python functions and take no frame; what a
    version of the interpreter counts besides for its own functions is not
    modelled.  Where the source calls a Python function, the model is given
    [frames], the number of frames that are left where the caller's body
    runs, and [call] runs the callee with one frame less. *)
Definition call {A} (frames : nat) (body : nat -> result A) : result A :=
  match frames with
  | O => Raise RecursionError
  | S room => body room
  end.

(** ['Node names or branch lengths must not contain "%s"' % char] *)
Definition InvalidLabelError (c : char) : exn :=
  ValueError (text "Node names or branch lengths must not contain "
              ++ [34%N] ++ [c] ++ [34%N]).

(** ['unmatched braces %s' % excerpt] *)
Definition SyntaxError (excerpt : str) : exn :=
  ValueError (text "unmatched braces " ++ excerpt).

(** ** Tree nodes *)

Definition RESERVED_PUNCTUATION : str := text ":;,()".

Inductive Node : Type :=
  mkNode { name : option str; length : option str; descendants : list Node }.

(** The validation loop of [Node.__init__]. *)
Fixpoint check_reserved (chars : str) (name length : option str) : result unit :=
  match chars with
  | [] => Return tt
  | c :: chars' =>
      if and_contains name c || and_contains length c
      then Raise (InvalidLabelError c)
      else check_reserved chars' name length
  end.

(** [Node(name, length, descendants)]; an omitted argument is [None]. *)
Definition Node_init (name length : option str)
    (descendants : option (list Node)) : result Node :=
  _ <- check_reserved RESERVED_PUNCTUATION name length;;
  Return (mkNode name length
            match descendants with
            | Some ((_ :: _) as l) => l
            | _ => []
            end).

(** [self.name or ''], then [label += ':' + self.length] if the length is
    true. *)
Definition label (n : Node) : str :=
  let label := match name n with Some s => s | None => [] end in
  match length n with
  | Some l => if truthy l then label ++ text ":" ++ l else label
  | None => label
  end.

(** [Node.newick] *)
Fixpoint newick (n : Node) : str :=
  let descendants := join (text ",") (map newick (descendants n)) in
  let descendants :=
    if truthy descendants then text "(" ++ descendants ++ text ")"
    else descendants in
  descendants ++ label n.

(** [Node.is_leaf] *)
Definition is_leaf (n : Node) : bool :=
  match descendants n with [] => true | _ => false end.

(** [dumps(trees)]: one node, or a list of nodes. *)
Definition dumps (trees : Node + list Node) : str :=
  let trees := match trees with inl n => [n] | inr l => l end in
  join (text ";" ++ [10%N]) (map newick trees) ++ text ";".

(** ** The parser *)

(** [_parse_name_and_length(s)].  When [':' in s] holds, [s.split(':', 1)]
    has exactly two parts ([splitn_contains] below), so the last branch of
    the [match] is never taken. *)
Definition _parse_name_and_length (s : str) : option str * option str :=
  if contains (ord ":") s then
    match splitn (ord ":") s 1 with
    | [s'; l] => (or_None s', or_None l)
    | _ => (or_None s, None)
    end
  else (or_None s, None).

(** The loop of the generator [_parse_siblings], run to its end as
    [list(...)] does: [cs] is what is left of [s + ","], [current] the
    characters collected so far (a list of one-character texts in the
    source, joined with the empty text when a sibling is complete).  A
    failing [parse_node] ends the loop with its exception. *)
Fixpoint siblings_loop (parse_node : str -> result Node) (cs : str)
    (bracket_level : Z) (current : str) : result (list Node) :=
  match cs with
  | [] => Return []
  | c :: cs' =>
      if (c =? ord ",")%N && (bracket_level =? 0)%Z then
        n <- parse_node current;;
        rest <- siblings_loop parse_node cs' bracket_level [];;
        Return (n :: rest)
      else
        let bracket_level :=
          if (c =? ord "(")%N then (bracket_level + 1)%Z
          else if (c =? ord ")")%N then (bracket_level - 1)%Z
          else bracket_level in
        siblings_loop parse_node cs' bracket_level (current ++ [c])
  end.

Definition _parse_siblings (parse_node : str -> result Node) (s : str)
    : result (list Node) :=
  siblings_loop parse_node (s ++ text ",") 0 [].

(** [parse_node(s)], where [frames] frames are left while its body runs.
    [list(_parse_siblings(...))] resumes the generator, which takes a frame,
    and each call of [parse_node] by the generator takes one more; the
    calls of [_parse_name_and_length] and of [Node] take a frame each, one
    after the other. *)
Fixpoint parse_node (frames : nat) (s : str) : result Node :=
  let s := strip s in
  let parts := split (ord ")") s in
  dl <- (if (List.length parts =? 1)%nat then Return ([], s)
         else if negb (startswith (default [] (head parts)) (text "("))
         then Raise (SyntaxError (take 100 (default [] (head parts))))
         else
           descendants <-
             call frames (fun room =>
               _parse_siblings
                 (fun ss => call room (fun room => parse_node room ss))
                 (drop 1 (join (text ")") (but_last parts))));;
           Return (descendants, last_part parts));;
  let '(descendants, label) := dl in
  nl <- call frames (fun _ => Return (_parse_name_and_length label));;
  let '(name, length) := nl in
  call frames (fun _ => Node_init name length (Some descendants)).

(** The list comprehension of [loads], where [frames] frames are left while
    it runs (before Python 3.12 a comprehension runs in a frame of its
    own). *)
Fixpoint loads_segments (frames : nat) (segments : list str)
    : result (list Node) :=
  match segments with
  | [] => Return []
  | ss :: segments' =>
      if truthy (strip ss) then
        n <- call frames (fun room => parse_node room (strip ss));;
        rest <- loads_segments frames segments';;
        Return (n :: rest)
      else loads_segments frames segments'
  end.

(** [loads(s)] *)
Definition loads (frames : nat) (s : str) : result (list Node) :=
  loads_segments frames (split (ord ";") s).

(** ** Objects and traversal

    [walk] and [_postorder] work on node objects: [_postorder] keys a
    dictionary by [id(node)] and pops from list objects.  A store maps the
    identity of an object to the object: a node holds its name, its length
    and a reference to the list object [descendants]; a list object holds
    references to its items. *)

Definition addr := positive.

Inductive obj : Type :=
  | ONode (name length : option str) (descendants : addr)
  | OList (items : list addr).

Abbreviation store := (gmap addr obj).

(** [list(node.descendants)]: the items of the list a node refers to.  A
    reference that is not to an object of the expected kind does not arise
    in Python; the model answers [AttributeError]. *)
Definition get_descendants (st : store) (node : addr) : result (list addr) :=
  match st !! node with
  | Some (ONode _ _ d) =>
      match st !! d with
      | Some (OList items) => Return items
      | _ => Raise AttributeError
      end
  | _ => Raise AttributeError
  end.

(** [for node in nodes: for n in f(node): yield n] *)
Fixpoint for_each (f : addr -> result (list addr)) (nodes : list addr)
    : result (list addr) :=
  match nodes with
  | [] => Return []
  | node :: nodes' =>
      ns <- f node;;
      rest <- for_each f nodes';;
      Return (ns ++ rest)
  end.

(** [list(self.walk())], where [frames] frames are left for the consumer:
    the default branch of [walk], run to its end, and the nodes it yields in
    order.  The generator takes a frame when it is resumed, and the
    generators of the descendants, which it resumes in turn, one more
    each. *)
Fixpoint walk_default (frames : nat) (st : store) (self : addr)
    : result (list addr) :=
  call frames (fun room =>
    descendants <- get_descendants st self;;
    rest <- for_each (walk_default room st) descendants;;
    Return (self :: rest)).

(** The dictionary comprehension of [_postorder]: for each node that
    [self.walk()] yields, a new list object with the items of
    [node.descendants], stored under [id(node)].  The list comprehension
    that makes the new list takes a frame where the generators of the walk
    have just taken at least one, so it always finds it. *)
Fixpoint copy_descendants (nodes : list addr) (st : store)
    (descendant_map : gmap addr addr) : result (store * gmap addr addr) :=
  match nodes with
  | [] => Return (st, descendant_map)
  | node :: nodes' =>
      items <- get_descendants st node;;
      let l := fresh (dom st) in
      copy_descendants nodes' (<[l := OList items]> st)
        (<[node := l]> descendant_map)
  end.

(** [if stack: descendant_map[id(stack[-1])].pop(0)] *)
Definition pop_first (st : store) (stack : list addr)
    (descendant_map : gmap addr addr) : result store :=
  match last stack with
  | None => Return st
  | Some parent =>
      match descendant_map !! parent with
      | None => Raise (KeyError parent)
      | Some l =>
          match st !! l with
          | Some (OList (_ :: items)) => Return (<[l := OList items]> st)
          | Some (OList []) => Raise IndexError
          | _ => Raise AttributeError
          end
      end
  end.

(** The [while stack:] loop of [_postorder]; the top of the stack is the
    last item of the list.  The result is the nodes it yields and the store
    it leaves. *)
Fixpoint postorder_loop (fuel : nat) (st : store) (stack : list addr)
    (descendant_map : gmap addr addr) : result (list addr * store) :=
  match fuel with
  | O => OutOfFuel
  | S fuel' =>
      match last stack with
      | None => Return ([], st)
      | Some node =>
          match descendant_map !! node with
          | None => Raise (KeyError node)
          | Some descendants =>
              match st !! descendants with
              | Some (OList []) =>
                  let stack := but_last stack in
                  st' <- pop_first st stack descendant_map;;
                  r <- postorder_loop fuel' st' stack descendant_map;;
                  Return (node :: r.1, r.2)
              | Some (OList (first :: _)) =>
                  postorder_loop fuel' st (stack ++ [first]) descendant_map
              | _ => Raise AttributeError
              end
          end
      end
  end.

(** The number of items of all the list objects of the store. *)
Definition list_items (st : store) : nat :=
  map_fold (fun _ o n =>
              match o with
              | OList items => List.length items + n
              | ONode _ _ _ => n
              end) 0 st.

(** [list(self._postorder())], where [frames] frames are left while the body
    of [_postorder] runs.  The dictionary comprehension runs in a frame of
    its own (before Python 3.12) and resumes [self.walk()] from there.  The
    [while] loop calls no Python function; it is run with fuel, and the
    fuel it is given here is enough on every store ([walk_ends] below):
    the loop pushes at most as deep as [self.walk()] went, and every second
    step takes an item from a list. *)
Definition _postorder (frames : nat) (st : store) (self : addr)
    : result (list addr * store) :=
  sd <- call frames (fun room =>
          nodes <- walk_default room st self;;
          copy_descendants nodes st ∅);;
  postorder_loop (2 * list_items sd.1 + frames + 1) sd.1 [self] sd.2.

(** [list(self.walk(mode))] and the store afterwards, where [frames] frames
    are left for the consumer.  In post-order mode the generator [walk]
    takes a frame and the generator [_postorder], which it resumes, one
    more. *)
Definition walk (frames : nat) (st : store) (self : addr)
    (mode : option str) : result (list addr * store) :=
  if bool_decide (mode = Some (text "postorder")) then
    call frames (fun room => call room (fun room => _postorder room st self))
  else
    nodes <- walk_default frames st self;;
    Return (nodes, st).

(** * Vocabulary of the properties

    What follows is not in the source: predicates, reference definitions
    worded after the specification, and the trees used as examples. *)

(** ** Labels, serialisation, documents *)

(** [c] occurs in [x], a name or a length that may be [None]. *)
Definition occurs (c : char) (x : option str) : Prop :=
  exists s, x = Some s /\ In c s.

(** No reserved character in the name or in the length. *)
Definition clean_label (name length : option str) : Prop :=
  forall c, In c RESERVED_PUNCTUATION -> ~ occurs c name /\ ~ occurs c length.

(** The serialisation as the specification words it: the children group is
    put in parentheses whenever the node has a child. *)
Fixpoint Serialize_spec (n : Node) : str :=
  let joined := join (text ",") (map Serialize_spec (descendants n)) in
  (if is_leaf n then [] else text "(" ++ joined ++ text ")") ++ label n.

Definition NL : str := [10%N].

(** A tree without children, named [s]. *)
Definition leaf (s : string) : Node := mkNode (Some (text s)) None [].

(** [parse_node(ss)] called where [room] frames are left: the call takes
    one of them. *)
Definition parse_below (room : nat) (ss : str) : result Node :=
  call room (fun room => parse_node room ss).

(** The texts of a list parsed in order, each by a call of [parse_node]
    where [frames] frames are left; the first failure is the failure of the
    whole. *)
Fixpoint parse_all (frames : nat) (segments : list str)
    : result (list Node) :=
  match segments with
  | [] => Return []
  | ss :: segments' =>
      n <- parse_below frames ss;;
      rest <- parse_all frames segments';;
      Return (n :: rest)
  end.

(** A text made of white space only. *)
Definition blank (w : str) : bool := forallb isspace w.

(** A text that neither begins nor ends with white space. *)
Definition trimmed (s : str) : bool :=
  match head s with Some c => negb (isspace c) | None => true end
  && match last s with Some c => negb (isspace c) | None => true end.

(** A segment of a document, between two [";"]: white space, a text that
    neither begins nor ends with white space, and white space again. *)
Record segment : Type := mkSegment { lead : str; body : str; trail : str }.

Definition segment_text (g : segment) : str := lead g ++ body g ++ trail g.

Definition segment_ok (g : segment) : Prop :=
  blank (lead g) = true /\ trimmed (body g) = true /\ blank (trail g) = true
  /\ contains (ord ";") (segment_text g) = false.

(** Texts with unmatched parentheses, as the specification means them: read
    from the left, a [")"] comes with no ["("] open, or a ["("] is still
    open at the end. *)
Fixpoint matched_from (depth : nat) (s : str) : bool :=
  match s with
  | [] => (depth =? 0)%nat
  | c :: s' =>
      if (c =? ord "(")%N then matched_from (S depth) s'
      else if (c =? ord ")")%N then
        match depth with
        | O => false
        | S depth' => matched_from depth' s'
        end
      else matched_from depth s'
  end.

Definition matched (s : str) : bool := matched_from 0 s.

(** The nodes of a tree, the root first. *)
Fixpoint nodes (n : Node) : list Node :=
  n :: concat (map nodes (descendants n)).

(** A tree built by [Node(...)] calls that all succeeded: no name and no
    length holds a reserved character. *)
Definition constructed (n : Node) : Prop :=
  Forall (fun m => clean_label (name m) (length m)) (nodes n).

(** The labels of a tree neither begin nor end with white space. *)
Definition trimmed_labels (n : Node) : bool :=
  forallb (fun m => trimmed (label m)) (nodes n).

(** The serialisation of no subtree begins or ends with white space. *)
Definition trimmed_texts (n : Node) : bool :=
  forallb (fun m => trimmed (newick m)) (nodes n).

(** A tree that its serialisation describes in full: no name and no length
    is the empty text, and no node has a single descendant whose
    serialisation is the empty text. *)
Definition normal (n : Node) : bool :=
  forallb (fun m =>
    bool_decide (name m <> Some []) && bool_decide (length m <> Some [])
    && match descendants m with [d] => truthy (newick d) | _ => true end)
    (nodes n).

(** The number of nodes on the longest path from the root to a leaf. *)
Fixpoint height (n : Node) : nat :=
  S (max_list (map height (descendants n))).

(** The stack room that [parse_node] takes on the serialisation of [n]: a
    frame for the calls that build the node, and two more for each level of
    parentheses. *)
Fixpoint parse_room (n : Node) : nat :=
  if truthy (join (text ",") (map newick (descendants n)))
  then 2 + max_list (map parse_room (descendants n))
  else 1.

(** The tree [a], [(a)a], [((a)a)a], ...: a chain of [S k] nodes. *)
Fixpoint chain (k : nat) : Node :=
  match k with
  | O => mkNode (Some (text "a")) None []
  | S k' => mkNode (Some (text "a")) None [chain k']
  end.

(** [x or None] for a name or a length that may already be [None] *)
Definition norm (x : option str) : option str :=
  match x with
  | Some s => or_None s
  | None => None
  end.

(** The tree that [parse_node] rebuilds from the serialisation of [n]. *)
Fixpoint reparse (n : Node) : Node :=
  mkNode (norm (name n)) (norm (length n))
    (if truthy (join (text ",") (map newick (descendants n)))
     then map reparse (descendants n)
     else []).

(** What the sibling loop does on the serialisation of one tree, at any
    bracket level that is not negative: it moves the text to [current]. *)
Definition skipped (parse : str -> result Node) (t : str) : Prop :=
  forall rest k cur, (0 <= k)%Z ->
    siblings_loop parse (t ++ rest) k cur
    = siblings_loop parse rest k (cur ++ t).

(** ** Objects of a tree *)

(** The objects of a list of trees, one tree after the other. *)
Fixpoint build_all (build : Node -> store -> addr * store) (ns : list Node)
    (st : store) : list addr * store :=
  match ns with
  | [] => ([], st)
  | c :: cs =>
      let '(a, st) := build c st in
      let '(items, st) := build_all build cs st in
      (a :: items, st)
  end.

(** The objects that the constructor calls of the parser create for a tree:
    the children first, then the list of the children, then the node. *)
Fixpoint build (n : Node) (st : store) : addr * store :=
  let '(items, st) := build_all build (descendants n) st in
  let l := fresh (dom st) in
  let st := <[l := OList items]> st in
  let a := fresh (dom st) in
  (a, <[a := ONode (name n) (length n) l]> st).

(** [[n.name for n in nodes]] *)
Definition names (st : store) (nodes : list addr) : list (option str) :=
  map (fun a => match st !! a with
                | Some (ONode name _ _) => name
                | _ => None
                end) nodes.

Definition tree_e : Node :=
  mkNode (Some (text "e")) None
    [leaf "a"; mkNode (Some (text "d")) None [leaf "b"; leaf "c"]].

(** ** Trees in the store *)

(** A tree of objects: the identity of the node, its name and length, the
    identity of its list of descendants, and the trees of the descendants. *)
Inductive ltree : Type :=
  LNode (self : addr) (name length : option str) (descendants : addr)
        (children : list ltree).

Definition root (t : ltree) : addr :=
  match t with LNode a _ _ _ _ => a end.

Definition children (t : ltree) : list ltree :=
  match t with LNode _ _ _ _ cs => cs end.

Definition node_obj (t : ltree) : obj :=
  match t with LNode _ nm ln l _ => ONode nm ln l end.

Definition list_addr (t : ltree) : addr :=
  match t with LNode _ _ _ l _ => l end.

Fixpoint subtrees (t : ltree) : list ltree :=
  t :: concat (map subtrees (children t)).

(** The nodes of the tree, each before its descendants. *)
Fixpoint preorder (t : ltree) : list addr :=
  root t :: concat (map preorder (children t)).

(** The nodes of the tree, each after its descendants. *)
Fixpoint postorder (t : ltree) : list addr :=
  concat (map postorder (children t)) ++ [root t].

(** The number of nodes on the longest path from the root to a leaf. *)
Fixpoint depth (t : ltree) : nat :=
  S (max_list (map depth (children t))).

(** The tree value of a tree of objects. *)
Fixpoint forget (t : ltree) : Node :=
  match t with
  | LNode _ nm ln _ cs => mkNode nm ln (map forget cs)
  end.

(** The store holds the node of [s] and the list of its descendants. *)
Definition holds (st : store) (s : ltree) : Prop :=
  st !! root s = Some (node_obj s)
  /\ st !! list_addr s = Some (OList (map root (children s))).

(** The store holds the tree [t]. *)
Definition is_tree (st : store) (t : ltree) : Prop :=
  Forall (holds st) (subtrees t).

(** ** The post-order loop on a tree *)

(** The list that the dictionary has for the node of [s] still holds all
    its descendants. *)
Definition full (dmap : gmap addr addr) (st : store) (s : ltree) : Prop :=
  exists l, dmap !! root s = Some l
            /\ st !! l = Some (OList (map root (children s))).

(** From [st] to [st'], no object changed but the lists that the
    dictionary has for the nodes [X]. *)
Definition untouched (dmap : gmap addr addr) (X : list addr)
    (st st' : store) : Prop :=
  forall l, (forall x, x ∈ X -> dmap !! x <> Some l) -> st' !! l = st !! l.

(** The node under the top of the stack, if any, is not in [X], and its
    list in the dictionary begins with [a]. *)
Definition parent_waits (dmap : gmap addr addr) (st : store)
    (stack : list addr) (a : addr) (X : list addr) : Prop :=
  forall p, last stack = Some p ->
    (p ∉ X) /\ exists lp more, dmap !! p = Some lp
                             /\ st !! lp = Some (OList (a :: more)).

(** The list of the node under the top of the stack lost its first item. *)
Definition parent_popped (dmap : gmap addr addr) (st st' : store)
    (stack : list addr) (a : addr) : Prop :=
  forall p lp more, last stack = Some p -> dmap !! p = Some lp ->
    st !! lp = Some (OList (a :: more)) -> st' !! lp = Some (OList more).

Definition subtree_spec (dmap : gmap addr addr) (t : ltree) : Prop :=
  forall st stack k,
    Forall (full dmap st) (subtrees t) ->
    NoDup (preorder t) ->
    parent_waits dmap st stack (root t) (preorder t) ->
    exists st',
      postorder_loop (2 * List.length (preorder t) + k) st
        (stack ++ [root t]) dmap
      = (r <- postorder_loop (S k) st' stack dmap;;
         Return (postorder t ++ r.1, r.2))
      /\ untouched dmap (preorder t ++ option_list (last stack)) st st'
      /\ parent_popped dmap st st' stack (root t).

(** ** The post-order loop on any store *)

(** [y] is one of the descendants of the node [x]. *)
Definition child (st : store) (x y : addr) : Prop :=
  exists items, get_descendants st x = Return items /\ y ∈ items.

(** Every value of the dictionary is a list object of the store, and each
    item [y] of the list under the key [x] satisfies [K x y]. *)
Definition keyed (K : addr -> addr -> Prop) (st : store)
    (dm : gmap addr addr) : Prop :=
  forall x lx, dm !! x = Some lx ->
    exists items, st !! lx = Some (OList items)
                  /\ forall y, y ∈ items -> K x y.

(** With [D] frames the default walk returns from the first node of the
    stack, with one frame less from the next, and so on. *)
Definition shallow (D : nat) (st : store) (stack : list addr) : Prop :=
  forall i x, stack !! i = Some x ->
    exists l, walk_default (D - i) st x = Return l.

(** Each node of the stack but the first is the first item of the list that
    the dictionary has for the node before it. *)
Definition linked (dm : gmap addr addr) (st : store) (stack : list addr)
    : Prop :=
  forall i p c, stack !! i = Some p -> stack !! (S i) = Some c ->
    exists lp more, dm !! p = Some lp /\ st !! lp = Some (OList (c :: more)).

(** The objects of the tree [(a,(b,c)d)e], as [build] lays them out. *)
Definition ltree_e : ltree :=
  (LNode 10 (Some (text "e")) None 9
     [LNode 2 (Some (text "a")) None 1 [];
      LNode 8 (Some (text "d")) None 7
        [LNode 4 (Some (text "b")) None 3 [];
         LNode 6 (Some (text "c")) None 5 []]])%positive.

(** * Properties *)

(** ** Text primitives *)

Lemma contains_In (c : char) (s : str) : contains c s = true <-> In c s.
Proof.
  unfold contains. rewrite existsb_exists. split.
  - intros (x & Hx & Heq). apply N.eqb_eq in Heq. by subst.
  - intros Hc. exists c. split; [done | apply N.eqb_refl].
Qed.

Lemma contains_false (c : char) (s : str) : contains c s = false <-> ~ In c s.
Proof.
  rewrite <- contains_In. by destruct (contains c s).
Qed.

Lemma contains_app (c : char) (s t : str) :
  contains c (s ++ t) = contains c s || contains c t.
Proof. unfold contains. apply existsb_app. Qed.

Lemma and_contains_In (x : option str) (c : char) :
  and_contains x c = true <-> exists s, x = Some s /\ In c s.
Proof.
  destruct x as [s|]; simpl.
  - rewrite andb_true_iff, contains_In. split.
    + intros [_ Hc]. eauto.
    + intros (s' & [= <-] & Hc). split; [by destruct s | done].
  - split; [done | by intros (s & ? & _)].
Qed.

(** ** Node construction *)

Lemma check_reserved_cases (chars : str) (name length : option str) :
  (check_reserved chars name length = Return tt /\
   forall c, In c chars -> ~ occurs c name /\ ~ occurs c length)
  \/ (exists c, In c chars /\ (occurs c name \/ occurs c length) /\
       check_reserved chars name length = Raise (InvalidLabelError c)).
Proof.
  induction chars as [|c chars IH]; simpl.
  - left. split; [done | by intros c []].
  - destruct (and_contains name c || and_contains length c) eqn:Hc.
    + right. exists c. split; [by left|]. split; [|done].
      apply orb_true_iff in Hc as [Hc|Hc]; apply and_contains_In in Hc; auto.
    + apply orb_false_iff in Hc as [Hn Hl].
      destruct IH as [[IH1 IH2]|(c' & Hin & Hocc & IH)].
      * left. split; [done|]. intros c' [<-|Hin]; [|by apply IH2].
        unfold occurs. rewrite <- !and_contains_In, Hn, Hl. done.
      * right. exists c'. split; [by right | done].
Qed.

Lemma InvalidLabelError_inj (c c' : char) :
  InvalidLabelError c = InvalidLabelError c' -> c = c'.
Proof. unfold InvalidLabelError. intros [= H]. by simplify_list_eq. Qed.

Lemma Node_init_clean name length descendants :
  clean_label name length ->
  Node_init name length descendants =
    Return (mkNode name length (default [] descendants)).
Proof.
  intros Hclean. unfold Node_init.
  destruct (check_reserved_cases RESERVED_PUNCTUATION name length)
    as [[-> _]|(c & Hin & Hocc & _)].
  - simpl. by destruct descendants as [[|]|].
  - destruct (Hclean c Hin) as [? ?]. by destruct Hocc.
Qed.

Lemma Node_init_raises name length descendants :
  ~ clean_label name length ->
  exists c, In c RESERVED_PUNCTUATION /\ (occurs c name \/ occurs c length) /\
    Node_init name length descendants = Raise (InvalidLabelError c).
Proof.
  intros Hdirty. unfold Node_init.
  destruct (check_reserved_cases RESERVED_PUNCTUATION name length)
    as [[_ Hall]|(c & Hin & Hocc & ->)].
  - by destruct Hdirty.
  - by exists c.
Qed.

(** [C4]: constructing a node fails, with the error that names a reserved
    character, exactly when the name or the length contains one of
    [:;,()]; otherwise it returns the node with the given fields.  Name
    ["a:b"] fails, length ["1,2"] fails, name ["ab"] with length ["1.5"]
    succeeds. *)
Theorem Node_init_validates :
  (forall name length descendants,
     ((exists c, In c (text ":;,()") /\ (occurs c name \/ occurs c length))
      <-> exists c, Node_init name length descendants
                    = Raise (InvalidLabelError c))
     /\ ((exists c, Node_init name length descendants
                    = Raise (InvalidLabelError c))
         \/ Node_init name length descendants
            = Return (mkNode name length (default [] descendants))))
  /\ Node_init (Some (text "a:b")) None None
     = Raise (InvalidLabelError (ord ":"))
  /\ Node_init None (Some (text "1,2")) None
     = Raise (InvalidLabelError (ord ","))
  /\ Node_init (Some (text "ab")) (Some (text "1.5")) None
     = Return (mkNode (Some (text "ab")) (Some (text "1.5")) []).
Proof.
  split; [|by vm_compute].
  intros name length descendants.
  change (text ":;,()") with RESERVED_PUNCTUATION.
  destruct (check_reserved_cases RESERVED_PUNCTUATION name length)
    as [[Hok Hall]|(c & Hin & Hocc & Hraise)].
  - assert (Hclean : clean_label name length) by exact Hall.
    rewrite (Node_init_clean _ _ descendants Hclean). split; [|by right].
    split.
    + intros (c & Hin & Hocc). destruct (Hall c Hin). by destruct Hocc.
    + by intros (c & ?).
  - unfold Node_init. rewrite Hraise. simpl. split; [|left; by exists c].
    split; [by exists c | intros _; by exists c].
Qed.

(** ** Serialisation *)

Lemma join_cons (sep p : str) (ps : list str) :
  ps <> [] -> join sep (p :: ps) = p ++ sep ++ join sep ps.
Proof. by destruct ps. Qed.

Lemma join_empty (sep : str) (parts : list str) :
  sep <> [] -> join sep parts = [] <-> parts = [] \/ parts = [[]].
Proof.
  intros Hsep. destruct parts as [|p [|q ps]]; simpl.
  - split; [by left | done].
  - split; [intros ->; by right | by intros [|[= ->]]].
  - split; [|by intros [|]].
    intros H. apply app_eq_nil in H as [_ H].
    apply app_eq_nil in H as [H _]. done.
Qed.

Lemma truthy_false (s : str) : truthy s = false <-> s = [].
Proof. by destruct s. Qed.

Lemma truthy_true (s : str) : truthy s = true <-> s <> [].
Proof. by destruct s. Qed.

Lemma newick_unfold (n : Node) :
  newick n =
    (if truthy (join (text ",") (map newick (descendants n)))
     then text "(" ++ join (text ",") (map newick (descendants n)) ++ text ")"
     else join (text ",") (map newick (descendants n)))
    ++ label n.
Proof. by destruct n. Qed.

(** [C3]: a node whose only child serialises to the empty text has a child
    ([is_leaf] is false), and is serialised without parentheses, where the
    specification's serialisation writes ["()"]; with two such children the
    parentheses are there.  [parse_node] builds such a node from ["()"], so
    that text comes back as the empty text. *)
Lemma newick_one_empty_child :
  let n := mkNode None None [mkNode None None []] in
  is_leaf n = false /\ newick n = text "" /\ Serialize_spec n = text "()"
  /\ newick (mkNode None None [mkNode None None []; mkNode None None []])
     = text "(,)"
  /\ parse_node 1000 (text "()") = Return n.
Proof. by vm_compute. Qed.

(** ** Documents *)

Lemma dumps_cons (t t' : Node) (ts : list Node) :
  dumps (inr (t :: t' :: ts))
  = newick t ++ text ";" ++ NL ++ dumps (inr (t' :: ts)).
Proof. unfold dumps. simpl map. rewrite join_cons by done. by simplify_list_eq. Qed.

(** ** More on text primitives *)

Lemma text_cons (a : ascii) (s : string) : text (String a s) = ord a :: text s.
Proof. done. Qed.

Lemma text_nil : text "" = [].
Proof. done. Qed.

Lemma contains_cons (c d : char) (s : str) :
  contains c (d :: s) = (c =? d)%N || contains c s.
Proof. done. Qed.

Lemma split_nonempty (sep : char) (s : str) : split sep s <> [].
Proof.
  induction s as [|c s IH]; simpl; [done|].
  destruct (c =? sep)%N; [done|]. by destruct (split sep s).
Qed.

Lemma split_no_sep (sep : char) (s : str) :
  contains sep s = false -> split sep s = [s].
Proof.
  induction s as [|c s IH]; [done|].
  rewrite contains_cons. intros [Hc Hs]%orb_false_iff. simpl.
  rewrite N.eqb_sym, Hc. by rewrite IH.
Qed.

Lemma split_sep (sep : char) (s : str) :
  contains sep s = true -> 2 <= List.length (split sep s).
Proof.
  induction s as [|c s IH]; [done|].
  rewrite contains_cons. simpl. rewrite (N.eqb_sym sep c).
  destruct (c =? sep)%N; simpl.
  - intros _. pose proof (split_nonempty sep s).
    destruct (split sep s); [done | simpl; lia].
  - intros H. specialize (IH H). destruct (split sep s); simpl in *; lia.
Qed.

Lemma split_app (sep : char) (a b : str) :
  split sep (a ++ sep :: b) = split sep a ++ split sep b.
Proof.
  induction a as [|c a IH]; simpl.
  - by rewrite N.eqb_refl.
  - rewrite IH. destruct (c =? sep)%N; [done|].
    pose proof (split_nonempty sep a). by destruct (split sep a).
Qed.

Lemma join_split (sep : char) (s : str) : join [sep] (split sep s) = s.
Proof.
  induction s as [|c s IH]; [done|]. simpl.
  pose proof (split_nonempty sep s) as Hne.
  destruct (c =? sep)%N eqn:Hc.
  - apply N.eqb_eq in Hc as ->. rewrite join_cons by done. by rewrite IH.
  - destruct (split sep s) as [|p [|q ps]]; [done|..]; simpl in *; by rewrite <- IH.
Qed.

Lemma join_snoc (sep : str) (l : list str) (x : str) :
  l <> [] -> join sep (l ++ [x]) = join sep l ++ sep ++ x.
Proof.
  induction l as [|p l IH]; [done|]. intros _.
  destruct l as [|q l]; [done|].
  change (join sep (p :: (q :: l) ++ [x]) = join sep (p :: q :: l) ++ sep ++ x).
  rewrite !join_cons by done. rewrite IH by done. by rewrite <- !app_assoc.
Qed.

Lemma but_last_snoc {A} (l : list A) (x : A) : but_last (l ++ [x]) = l.
Proof.
  unfold but_last. rewrite length_app. simpl.
  replace (List.length l + 1 - 1) with (List.length l) by lia.
  by rewrite take_app_length.
Qed.

Lemma last_part_snoc (l : list str) (x : str) : last_part (l ++ [x]) = x.
Proof. unfold last_part. by rewrite last_snoc. Qed.

Lemma snoc_but_last (l : list str) :
  l <> [] -> l = but_last l ++ [last_part l].
Proof.
  destruct l as [|x l] using rev_ind; [done|]. intros _.
  by rewrite but_last_snoc, last_part_snoc.
Qed.

(** What [parse_node] relies on when a [")"] is present: the text is the
    joined first parts, a [")"], and the last part. *)
Lemma split_last (sep : char) (s : str) :
  2 <= List.length (split sep s) ->
  s = join [sep] (but_last (split sep s)) ++ [sep] ++ last_part (split sep s).
Proof.
  intros Hlen. rewrite <- (join_split sep s) at 1.
  rewrite (snoc_but_last (split sep s)) at 1 by apply split_nonempty.
  apply join_snoc. intros Hnil.
  rewrite (snoc_but_last (split sep s)) in Hlen by apply split_nonempty.
  rewrite Hnil in Hlen. simpl in Hlen. lia.
Qed.

Lemma splitn_contains (sep : char) (a b : str) :
  contains sep a = false -> splitn sep (a ++ sep :: b) 1 = [a; b].
Proof.
  induction a as [|c a IH].
  - intros _. simpl. rewrite N.eqb_refl. by destruct b.
  - rewrite contains_cons. intros [Hc Ha]%orb_false_iff. simpl.
    rewrite N.eqb_sym, Hc. by rewrite IH.
Qed.

Lemma contains_split (sep : char) (s : str) :
  contains sep s = true ->
  exists a b, s = a ++ sep :: b /\ contains sep a = false.
Proof.
  induction s as [|c s IH]; [done|].
  rewrite contains_cons. destruct (sep =? c)%N eqn:Hc.
  - apply N.eqb_eq in Hc as <-. intros _. by exists [], s.
  - intros (a & b & -> & Ha)%IH. exists (c :: a), b. split; [done|].
    by rewrite contains_cons, Hc.
Qed.

Lemma lstrip_length (s : str) : List.length (lstrip s) <= List.length s.
Proof.
  induction s as [|c s IH]; simpl; [done|].
  destruct (isspace c); simpl; lia.
Qed.

Lemma strip_length (s : str) : List.length (strip s) <= List.length s.
Proof.
  unfold strip, rstrip. rewrite length_reverse.
  etrans; [apply lstrip_length|]. rewrite length_reverse. apply lstrip_length.
Qed.

Lemma strip_trimmed (s : str) : trimmed s = true -> strip s = s.
Proof.
  unfold trimmed. intros [Hh Hl]%andb_true_iff.
  assert (forall t, match head t with
                    | Some c => negb (isspace c) | None => true
                    end = true -> lstrip t = t) as Hlstrip.
  { intros [|c t]; [done|]. simpl. by intros ->%negb_true_iff. }
  unfold strip, rstrip. rewrite (Hlstrip s Hh).
  rewrite Hlstrip; [apply reverse_involutive|]. by rewrite head_reverse.
Qed.

(** ** The recursion of the parser *)

Lemma parse_below_0 (ss : str) : parse_below 0 ss = Raise RecursionError.
Proof. done. Qed.

Lemma parse_below_S (room : nat) (ss : str) :
  parse_below (S room) ss = parse_node room ss.
Proof. done. Qed.

(** With a frame left, [parse_node] goes on as the source reads. *)
Lemma parse_node_S (room : nat) (s : str) :
  parse_node (S room) s =
    (dl <- (if (List.length (split (ord ")") (strip s)) =? 1)%nat
            then Return ([], strip s)
            else if negb (startswith
                            (default [] (head (split (ord ")") (strip s))))
                            (text "("))
            then Raise (SyntaxError
                          (take 100
                             (default [] (head (split (ord ")") (strip s))))))
            else
              descendants <-
                _parse_siblings (parse_below room)
                  (drop 1 (join (text ")")
                             (but_last (split (ord ")") (strip s)))));;
              Return (descendants, last_part (split (ord ")") (strip s))));;
     let '(descendants, label) := dl in
     let '(name, length) := _parse_name_and_length label in
     Node_init name length (Some descendants)).
Proof. done. Qed.

(** With no frame left, the only thing [parse_node] can still do is to
    refuse a text that has a [")"] and does not begin with ["("]. *)
Lemma parse_node_0 (s : str) :
  parse_node 0 s =
    if (List.length (split (ord ")") (strip s)) =? 1)%nat
    then Raise RecursionError
    else if negb (startswith
                    (default [] (head (split (ord ")") (strip s))))
                    (text "("))
    then Raise (SyntaxError
                  (take 100 (default [] (head (split (ord ")") (strip s))))))
    else Raise RecursionError.
Proof.
  cbn [parse_node]. destruct (List.length _ =? 1)%nat; [done|].
  by destruct (negb _).
Qed.

Lemma Node_init_answers name length descendants :
  Node_init name length descendants <> OutOfFuel.
Proof.
  unfold Node_init.
  destruct (check_reserved_cases RESERVED_PUNCTUATION name length)
    as [[-> _]|(c & _ & _ & ->)]; done.
Qed.

Lemma Node_init_Raise name length descendants (e : exn) :
  Node_init name length descendants = Raise e ->
  exists c, In c RESERVED_PUNCTUATION /\ e = InvalidLabelError c.
Proof.
  unfold Node_init.
  destruct (check_reserved_cases RESERVED_PUNCTUATION name length)
    as [[-> _]|(c & Hin & _ & ->)]; simpl; [done|].
  intros [= <-]. by exists c.
Qed.

Lemma Node_init_Return name length descendants (n : Node) :
  Node_init name length descendants = Return n ->
  clean_label name length /\ n = mkNode name length (default [] descendants).
Proof.
  unfold Node_init.
  destruct (check_reserved_cases RESERVED_PUNCTUATION name length)
    as [[-> Hall]|(c & _ & _ & ->)]; simpl; [|done].
  intros [= <-]. split; [done|]. by destruct descendants as [[|]|].
Qed.

(** An exception that leaves the sibling loop was raised by [parse_node] on
    some sibling. *)
Lemma siblings_loop_Raise parse (cs : str) (k : Z) (cur : str) (e : exn) :
  siblings_loop parse cs k cur = Raise e -> exists t, parse t = Raise e.
Proof.
  revert k cur. induction cs as [|c cs IH]; intros k cur; simpl; [done|].
  destruct ((c =? ord ",")%N && (k =? 0)%Z).
  - destruct (parse cur) as [n| |] eqn:Hp; simpl; [|intros [= <-]; eauto|done].
    destruct (siblings_loop parse cs k []) eqn:Hl; simpl; try done.
    intros [= <-]. eauto.
  - apply IH.
Qed.

Lemma siblings_loop_Return parse (cs : str) (k : Z) (cur : str)
    (ds : list Node) :
  siblings_loop parse cs k cur = Return ds ->
  Forall (fun d => exists t, parse t = Return d) ds.
Proof.
  revert k cur ds. induction cs as [|c cs IH]; intros k cur ds; simpl.
  - intros [= <-]. constructor.
  - destruct ((c =? ord ",")%N && (k =? 0)%Z); [|apply IH].
    destruct (parse cur) as [n| |] eqn:Hp; simpl; [|done..].
    destruct (siblings_loop parse cs k []) as [rest| |] eqn:Hl; simpl;
      [|done..].
    intros [= <-]. constructor; [eauto | by eapply IH].
Qed.

Lemma siblings_loop_answers parse (cs : str) (k : Z) (cur : str) :
  (forall t, parse t <> OutOfFuel) ->
  siblings_loop parse cs k cur <> OutOfFuel.
Proof.
  intros Hparse. revert k cur.
  induction cs as [|c cs IH]; intros k cur; simpl; [done|].
  destruct ((c =? ord ",")%N && (k =? 0)%Z); [|apply IH].
  specialize (Hparse cur). specialize (IH k []).
  destruct (parse cur); simpl; [|done..].
  by destruct (siblings_loop parse cs k []).
Qed.

(** The parser needs no fuel: it returns or raises. *)
Lemma parse_node_answers (frames : nat) (s : str) :
  parse_node frames s <> OutOfFuel.
Proof.
  revert s. induction frames as [frames IH] using lt_wf_ind. intros s.
  destruct frames as [|room].
  { rewrite parse_node_0. destruct (_ =? 1)%nat; [done|]. by destruct (negb _). }
  rewrite parse_node_S.
  set (parts := split (ord ")") (strip s)).
  destruct (List.length parts =? 1)%nat; simpl.
  { destruct (_parse_name_and_length (strip s)). apply Node_init_answers. }
  destruct (startswith _ _); simpl; [|done].
  set (d := drop 1 (join (text ")") (but_last parts))).
  assert (_parse_siblings (parse_below room) d <> OutOfFuel) as Hsib.
  { apply siblings_loop_answers. intros t.
    destruct room as [|room']; [done|]. rewrite parse_below_S. apply IH. lia. }
  destruct (_parse_siblings (parse_below room) d); simpl; [|done..].
  destruct (_parse_name_and_length (last_part parts)). apply Node_init_answers.
Qed.

Lemma parse_below_answers (room : nat) (s : str) :
  parse_below room s <> OutOfFuel.
Proof. destruct room; [done|]. apply parse_node_answers. Qed.

(** *** What is raised *)

Lemma SyntaxError_inj (e e' : str) : SyntaxError e = SyntaxError e' -> e = e'.
Proof. unfold SyntaxError. intros [= H]. by simplify_list_eq. Qed.

Lemma InvalidLabelError_not_SyntaxError (c : char) (e : str) :
  InvalidLabelError c <> SyntaxError e.
Proof. unfold InvalidLabelError, SyntaxError. rewrite !text_cons. by intros [=]. Qed.

Lemma parse_node_Raise (frames : nat) (s : str) (e : exn) :
  parse_node frames s = Raise e ->
  (exists c, In c RESERVED_PUNCTUATION /\ e = InvalidLabelError c)
  \/ (exists x, List.length x <= 100 /\ e = SyntaxError x)
  \/ e = RecursionError.
Proof.
  revert s. induction frames as [frames IH] using lt_wf_ind. intros s.
  assert (forall x : str,
            @Raise Node (SyntaxError (take 100 x)) = Raise e ->
            (exists c, In c RESERVED_PUNCTUATION /\ e = InvalidLabelError c)
            \/ (exists x, List.length x <= 100 /\ e = SyntaxError x)
            \/ e = RecursionError) as Hsyntax.
  { intros x [= <-]. right. left. eexists. split; [|done].
    rewrite length_take. lia. }
  destruct frames as [|room].
  { rewrite parse_node_0. destruct (_ =? 1)%nat; [intros [= <-]; auto|].
    destruct (negb _); [apply Hsyntax | intros [= <-]; auto]. }
  rewrite parse_node_S.
  set (parts := split (ord ")") (strip s)).
  destruct (List.length parts =? 1)%nat; simpl.
  { destruct (_parse_name_and_length (strip s)).
    intros (c & Hc & ->)%Node_init_Raise. left. by exists c. }
  destruct (startswith _ _); simpl; [|apply Hsyntax].
  destruct (_parse_siblings _ _) as [ds|x|] eqn:Hsib; simpl; [| |done].
  - destruct (_parse_name_and_length (last_part parts)).
    intros (c & Hc & ->)%Node_init_Raise. left. by exists c.
  - intros [= ->]. apply siblings_loop_Raise in Hsib as [t Ht].
    destruct room as [|room']; [injection Ht as <-; auto|].
    rewrite parse_below_S in Ht. eapply IH; [|exact Ht]. lia.
Qed.

Lemma parse_node_excerpt (frames : nat) (s e : str) :
  parse_node frames s = Raise (SyntaxError e) -> List.length e <= 100.
Proof.
  intros [(c & _ & Hc)|[(x & Hx & Heq)|Heq]]%parse_node_Raise.
  - by apply eq_sym, InvalidLabelError_not_SyntaxError in Hc.
  - by apply SyntaxError_inj in Heq as ->.
  - done.
Qed.

(** *** The room that is enough *)

(** The text of the descendants is shorter by two than the text it is taken
    from: the parentheses around it are gone. *)
Lemma descendants_length (s : str) :
  (List.length (split (ord ")") s) =? 1)%nat = false ->
  startswith (default [] (head (split (ord ")") s))) (text "(") = true ->
  List.length (drop 1 (join (text ")") (but_last (split (ord ")") s)))) + 2
  <= List.length s.
Proof.
  intros Hparts Hstart. apply Nat.eqb_neq in Hparts.
  pose proof (split_nonempty (ord ")") s) as Hne.
  set (parts := split (ord ")") s) in *.
  assert (2 <= List.length parts) as Hge
    by (destruct parts as [|? [|? ?]]; simpl in *; try done; lia).
  pose proof (split_last _ _ Hge) as Hs. fold parts in Hs.
  apply (f_equal (@List.length _)) in Hs. rewrite !length_app in Hs.
  cbn [List.length] in Hs. rewrite length_drop.
  change (text ")") with [ord ")"].
  assert (1 <= List.length (join [ord ")"] (but_last parts))); [|lia].
  destruct parts as [|p [|q ps]]; [done | simpl in Hge; lia |].
  cbn [head default from_option id] in Hstart.
  destruct p as [|c p]; [done|].
  unfold but_last. cbn [List.length].
  replace (S (S (List.length ps)) - 1) with (S (List.length ps)) by lia.
  cbn [take].
  destruct (take (List.length ps) (q :: ps)); cbn [join];
    rewrite ?length_app; cbn [List.length]; lia.
Qed.

Lemma siblings_loop_room parse (L : nat) (cs : str) (k : Z) (cur : str) :
  (forall t, List.length t <= L -> parse t <> Raise RecursionError) ->
  List.length cur + List.length cs <= L + 1 ->
  siblings_loop parse cs k cur <> Raise RecursionError.
Proof.
  intros Hparse. revert k cur.
  induction cs as [|c cs IH]; intros k cur Hlen; simpl; [done|].
  simpl in Hlen. destruct ((c =? ord ",")%N && (k =? 0)%Z).
  - assert (parse cur <> Raise RecursionError) as Hcur by (apply Hparse; lia).
    assert (siblings_loop parse cs k [] <> Raise RecursionError) as Hrest
      by (apply IH; simpl; lia).
    destruct (parse cur); simpl; [|congruence|done].
    destruct (siblings_loop parse cs k []); simpl; [done|congruence|done].
  - apply IH. rewrite length_app. simpl. lia.
Qed.

(** A text is never nested deeper than it is long, and a level takes two
    frames: with more frames than the text has characters, the stack does
    not fill up. *)
Lemma parse_node_room (frames : nat) (s : str) :
  List.length s < frames -> parse_node frames s <> Raise RecursionError.
Proof.
  revert s. induction frames as [frames IH] using lt_wf_ind. intros s Hlen.
  destruct frames as [|room]; [lia|]. rewrite parse_node_S.
  pose proof (strip_length s) as Hstrip.
  set (parts := split (ord ")") (strip s)) in *.
  assert (forall nm ln ds,
            Node_init nm ln ds <> Raise RecursionError) as Hinit.
  { intros nm ln ds Hraise. by apply Node_init_Raise in Hraise as (c & _ & ?). }
  destruct (List.length parts =? 1)%nat eqn:Hparts; simpl.
  { destruct (_parse_name_and_length (strip s)). apply Hinit. }
  destruct (startswith _ _) eqn:Hstart; simpl; [|done].
  pose proof (descendants_length _ Hparts Hstart) as Hd. fold parts in Hd.
  set (d := drop 1 (join (text ")") (but_last parts))) in *.
  assert (_parse_siblings (parse_below room) d <> Raise RecursionError)
    as Hsib.
  { unfold _parse_siblings. apply (siblings_loop_room _ (List.length d)).
    - intros t Ht. destruct room as [|room']; [lia|].
      rewrite parse_below_S. apply IH; lia.
    - rewrite length_app. simpl. lia. }
  destruct (_parse_siblings (parse_below room) d); simpl; [|congruence|done].
  destruct (_parse_name_and_length (last_part parts)). apply Hinit.
Qed.

(** *** More room *)

Lemma siblings_loop_ext parse parse' (cs : str) (k : Z) (cur : str) :
  (forall t, parse t <> Raise RecursionError -> parse' t = parse t) ->
  siblings_loop parse cs k cur <> Raise RecursionError ->
  siblings_loop parse' cs k cur = siblings_loop parse cs k cur.
Proof.
  intros Hext. revert k cur.
  induction cs as [|c cs IH]; intros k cur; simpl; [done|].
  destruct ((c =? ord ",")%N && (k =? 0)%Z); [|apply IH].
  destruct (parse cur) as [n|e|] eqn:Hp; simpl.
  - rewrite Hext, Hp by (by rewrite Hp). simpl.
    destruct (siblings_loop parse cs k []) as [rest|e|] eqn:Hl; simpl;
      intros Hne; rewrite IH, Hl; try done; congruence.
  - intros Hne. rewrite Hext, Hp; [done|]. rewrite Hp. congruence.
  - intros _. rewrite Hext, Hp; [done|]. by rewrite Hp.
Qed.

(** More room does not change an answer, unless the answer was that the
    stack is full. *)
Lemma parse_node_mono (frames frames' : nat) (s : str) :
  frames <= frames' -> parse_node frames s <> Raise RecursionError ->
  parse_node frames' s = parse_node frames s.
Proof.
  revert frames' s. induction frames as [frames IH] using lt_wf_ind.
  intros frames' s Hle.
  destruct frames as [|room].
  { rewrite parse_node_0. destruct frames' as [|room']; [by rewrite parse_node_0|].
    rewrite parse_node_S. destruct (_ =? 1)%nat; [done|].
    by destruct (negb _). }
  destruct frames' as [|room']; [lia|]. rewrite !parse_node_S.
  set (parts := split (ord ")") (strip s)).
  destruct (List.length parts =? 1)%nat; [done|].
  destruct (negb _); [done|].
  set (d := drop 1 (join (text ")") (but_last parts))).
  assert (forall t, parse_below room t <> Raise RecursionError ->
                    parse_below room' t = parse_below room t) as Hext.
  { intros t. destruct room as [|r]; [done|].
    destruct room' as [|r']; [lia|]. rewrite !parse_below_S.
    apply IH; lia. }
  destruct (_parse_siblings (parse_below room) d) as [ds|e|] eqn:Hsib;
    simpl; intros Hne; unfold _parse_siblings in *;
    rewrite (siblings_loop_ext (parse_below room)), Hsib;
    try done; rewrite Hsib; congruence.
Qed.

Lemma parse_below_mono (room room' : nat) (s : str) :
  room <= room' -> parse_below room s <> Raise RecursionError ->
  parse_below room' s = parse_below room s.
Proof.
  intros Hle. destruct room as [|r]; [done|].
  destruct room' as [|r']; [lia|]. rewrite !parse_below_S.
  apply parse_node_mono. lia.
Qed.

Lemma parse_node_Return_mono (frames frames' : nat) (s : str) (n : Node) :
  frames <= frames' -> parse_node frames s = Return n ->
  parse_node frames' s = Return n.
Proof.
  intros Hle Hp. rewrite <- Hp. apply parse_node_mono; [done|]. by rewrite Hp.
Qed.
(** ** White space *)

Lemma rstrip_snoc (s : str) (c : char) :
  rstrip (s ++ [c]) = if isspace c then rstrip s else s ++ [c].
Proof.
  unfold rstrip. rewrite reverse_snoc. simpl.
  destruct (isspace c); [done|]. by rewrite reverse_cons, reverse_involutive.
Qed.

Lemma lstrip_head_not_space (s : str) :
  match head (lstrip s) with
  | Some c => negb (isspace c)
  | None => true
  end = true.
Proof.
  induction s as [|c s IH]; [done|]. simpl.
  destruct (isspace c) eqn:Hc; [done|]. simpl. by rewrite Hc.
Qed.

Lemma rstrip_head_not_space (s : str) :
  match head s with Some c => negb (isspace c) | None => true end = true ->
  match head (rstrip s) with
  | Some c => negb (isspace c)
  | None => true
  end = true.
Proof.
  induction s as [|c s IH] using rev_ind; [done|].
  rewrite rstrip_snoc. destruct (isspace c); [|done].
  intros Hh. apply IH. destruct s; [done|]. exact Hh.
Qed.

Lemma rstrip_last_not_space (s : str) :
  match last (rstrip s) with
  | Some c => negb (isspace c)
  | None => true
  end = true.
Proof.
  induction s as [|c s IH] using rev_ind; [done|].
  rewrite rstrip_snoc. destruct (isspace c) eqn:Hc; [done|].
  by rewrite last_snoc, Hc.
Qed.

Lemma trimmed_strip (s : str) : trimmed (strip s) = true.
Proof.
  unfold trimmed, strip. apply andb_true_iff. split.
  - apply rstrip_head_not_space, lstrip_head_not_space.
  - apply rstrip_last_not_space.
Qed.


Lemma lstrip_blank (w p : str) : blank w = true -> lstrip (w ++ p) = lstrip p.
Proof.
  induction w as [|c w IH]; [done|]. simpl.
  intros [-> Hw]%andb_true_iff. by apply IH.
Qed.

Lemma strip_blank (w p : str) : blank w = true -> strip (w ++ p) = strip p.
Proof. intros Hw. unfold strip. by rewrite lstrip_blank. Qed.

Lemma rstrip_blank (p w : str) : blank w = true -> rstrip (p ++ w) = rstrip p.
Proof.
  induction w as [|c w IH] using rev_ind; [by rewrite app_nil_r|].
  unfold blank. rewrite forallb_app. cbn [forallb].
  intros [Hw [Hc _]%andb_true_iff]%andb_true_iff.
  rewrite app_assoc, rstrip_snoc, Hc. by apply IH.
Qed.

Lemma contains_blank (c : char) (w : str) :
  isspace c = false -> blank w = true -> contains c w = false.
Proof.
  intros Hc. induction w as [|d w IH]; [done|]. cbn [blank forallb].
  intros [Hd Hw]%andb_true_iff. rewrite contains_cons, IH by done.
  destruct (N.eqb_spec c d) as [->|]; [congruence | done].
Qed.

Lemma lstrip_split (s : str) :
  exists w, blank w = true /\ s = w ++ lstrip s.
Proof.
  induction s as [|c s (w & Hw & IH)]; [by exists []|]. cbn [lstrip].
  destruct (isspace c) eqn:Hc; [|by exists []].
  exists (c :: w). cbn [blank forallb]. rewrite Hc. split; [done|].
  cbn [app]. by rewrite <- IH.
Qed.

(** A text is its [strip()] with white space before and after. *)
Lemma strip_split (s : str) :
  exists w1 w2, blank w1 = true /\ blank w2 = true
                /\ s = w1 ++ strip s ++ w2.
Proof.
  destruct (lstrip_split s) as (w1 & Hw1 & Hs).
  destruct (lstrip_split (reverse (lstrip s))) as (w2 & Hw2 & Hr).
  exists w1, (reverse w2). split; [done|]. split.
  - unfold blank in *. rewrite forallb_forall in Hw2 |- *.
    intros x Hx. apply Hw2.
    by rewrite <- list_elem_of_In, <- elem_of_reverse, list_elem_of_In.
  - rewrite Hs at 1. f_equal. unfold strip, rstrip.
    rewrite <- reverse_app, <- Hr. by rewrite reverse_involutive.
Qed.

Lemma In_lstrip (c : char) (s : str) : In c (lstrip s) -> In c s.
Proof.
  induction s as [|d s IH]; [done|]. simpl.
  destruct (isspace d); [|done]. intros Hin. right. by apply IH.
Qed.

Lemma In_strip (c : char) (s : str) : In c (strip s) -> In c s.
Proof.
  unfold strip, rstrip. intros Hin. apply In_lstrip.
  rewrite <- list_elem_of_In, elem_of_reverse, list_elem_of_In in Hin.
  apply In_lstrip in Hin.
  by rewrite <- list_elem_of_In, elem_of_reverse, list_elem_of_In in Hin.
Qed.

Lemma contains_strip (c : char) (s : str) :
  contains c s = false -> contains c (strip s) = false.
Proof. rewrite !contains_false. intros Hs Hin. by apply Hs, In_strip. Qed.

Lemma strip_segment (g : segment) :
  segment_ok g -> strip (segment_text g) = body g.
Proof.
  intros (Hlead & Hbody & Htrail & _). unfold segment_text.
  rewrite strip_blank by done. unfold strip.
  destruct (body g) as [|c b] eqn:Hb.
  - cbn [app]. rewrite <- (app_nil_r (trail g)), lstrip_blank by done. done.
  - assert (lstrip ((c :: b) ++ trail g) = (c :: b) ++ trail g) as ->.
    { unfold trimmed in Hbody. apply andb_true_iff in Hbody as [Hh _].
      cbn [head] in Hh. apply negb_true_iff in Hh. cbn [app lstrip].
      by rewrite Hh. }
    rewrite rstrip_blank by done.
    pose proof (strip_trimmed _ Hbody) as Hstrip. unfold strip in Hstrip.
    assert (lstrip (c :: b) = c :: b) as Hl.
    { unfold trimmed in Hbody. apply andb_true_iff in Hbody as [Hh _].
      cbn [head] in Hh. apply negb_true_iff in Hh. cbn [lstrip].
      by rewrite Hh. }
    by rewrite Hl in Hstrip.
Qed.

(** ** Splitting *)

Lemma split_parts (sep : char) (s : str) :
  Forall (fun p => contains sep p = false) (split sep s).
Proof.
  induction s as [|c s IH]; [by repeat constructor|]. cbn [split].
  destruct (c =? sep)%N eqn:Hc; [by constructor|].
  pose proof (split_nonempty sep s) as Hne.
  destruct (split sep s) as [|p ps]; [done|].
  apply Forall_cons in IH as [Hp Hps]. cbn [cons_first].
  constructor; [|done]. by rewrite contains_cons, N.eqb_sym, Hc.
Qed.

Lemma split_join (sep : char) (parts : list str) :
  parts <> [] -> Forall (fun p => contains sep p = false) parts ->
  split sep (join [sep] parts) = parts.
Proof.
  intros Hne Hparts. induction Hparts as [|p parts Hp Hparts IH]; [done|].
  destruct parts as [|q parts]; [by apply split_no_sep|].
  rewrite join_cons by done. cbn [app].
  by rewrite split_app, split_no_sep, IH.
Qed.

(** ** Malformed input *)

Lemma startswith_head_split (sep c : char) (s : str) :
  c <> sep ->
  startswith (default [] (head (split sep s))) [c] = startswith s [c].
Proof.
  intros Hc. destruct s as [|d s]; [done|]. simpl.
  destruct (d =? sep)%N eqn:Hd.
  - apply N.eqb_eq in Hd as ->. simpl.
    symmetry. apply andb_false_iff. left. apply N.eqb_neq. congruence.
  - pose proof (split_nonempty sep s) as Hne.
    by destruct (split sep s) as [|p ps].
Qed.

Lemma startswith_cons (c : char) (s : str) : startswith (c :: s) [c] = true.
Proof. unfold startswith. by rewrite N.eqb_refl. Qed.

Lemma parse_node_unmatched (frames : nat) (s : str) :
  contains (ord ")") (strip s) = true ->
  startswith (strip s) (text "(") = false ->
  parse_node frames s =
    Raise (SyntaxError
             (take 100 (default [] (head (split (ord ")") (strip s)))))).
Proof.
  intros Hin Hstart. apply split_sep in Hin.
  assert ((List.length (split (ord ")") (strip s)) =? 1)%nat = false) as Hlen
    by (apply Nat.eqb_neq; lia).
  assert (negb (startswith (default [] (head (split (ord ")") (strip s))))
                 (text "(")) = true) as Hneg.
  { change (text "(") with [ord "("] in *.
    rewrite startswith_head_split by done. by rewrite Hstart. }
  destruct frames as [|room].
  - by rewrite parse_node_0, Hlen, Hneg.
  - by rewrite parse_node_S, Hlen, Hneg.
Qed.

(** [C9]: [parse_node("a)b")] raises the error for unmatched braces, however
    much room the stack has: the part before the first [")"] is ["a"], which
    does not start with ["("].  The message carries that part, cut to at
    most 100 characters; no such error of [parse_node] carries more. *)
Theorem parse_node_unmatched_braces :
  (forall frames,
     parse_node frames (text "a)b") = Raise (SyntaxError (text "a")))
  /\ head (split (ord ")") (text "a)b")) = Some (text "a")
  /\ startswith (text "a") (text "(") = false
  /\ forall frames s e,
       parse_node frames s = Raise (SyntaxError e) -> List.length e <= 100.
Proof.
  split; [|split; [by vm_compute|split; [by vm_compute|]]].
  - intros frames. by rewrite parse_node_unmatched.
  - intros frames s e. apply parse_node_excerpt.
Qed.

(** [C2], amended: a text that, once trimmed, contains a [")"] and does not
    begin with ["("] makes [parse_node] raise the error for unmatched
    braces, with the first 100 characters of the part before the first
    [")"], however much room the stack has. *)
Theorem parse_node_SyntaxError (frames : nat) (s : str) :
  contains (ord ")") (strip s) = true ->
  startswith (strip s) (text "(") = false ->
  parse_node frames s =
    Raise (SyntaxError
             (take 100 (default [] (head (split (ord ")") (strip s)))))).
Proof. apply parse_node_unmatched. Qed.

Lemma parse_node_SyntaxError_witness :
  parse_node 1000 (text " a,b)c ") = Raise (SyntaxError (text "a,b")).
Proof. by apply (parse_node_SyntaxError 1000 (text " a,b)c ")). Defined.

(** Two texts with unmatched parentheses: on the first [parse_node] returns
    a node, on the second it raises the error of the node constructor. *)
Lemma parse_node_unmatched_accepted :
  matched (text "(a))") = false
  /\ parse_node 1000 (text "(a))") = Return (mkNode None None [])
  /\ matched (text "(a") = false
  /\ parse_node 1000 (text "(a") = Raise (InvalidLabelError (ord "(")).
Proof. by vm_compute. Qed.

(** ** The parser on an example *)

(** [C5]: ["(a,(b,c),d)"] parses to a root with the three children [a], a
    subtree and [d]; the subtree has the two children [b] and [c]: the comma
    between [b] and [c], at bracket level 1, does not end a sibling.  The
    two levels of parentheses take five frames of the stack. *)
Theorem parse_node_siblings (frames : nat) :
  5 <= frames ->
  parse_node frames (text "(a,(b,c),d)")
  = Return (mkNode None None
              [leaf "a"; mkNode None None [leaf "b"; leaf "c"]; leaf "d"]).
Proof.
  intros Hframes. apply (parse_node_Return_mono 5); [done|]. by vm_compute.
Qed.

Lemma parse_node_siblings_witness :
  parse_node 5 (text "(a,(b,c),d)")
  = Return (mkNode None None
              [leaf "a"; mkNode None None [leaf "b"; leaf "c"]; leaf "d"]).
Proof. apply (parse_node_siblings 5). lia. Defined.

(** ** Documents read *)

Lemma loads_segments_spec (frames : nat) (segments : list str) :
  loads_segments frames segments
  = parse_all frames (filter (fun ss => ss <> []) (map strip segments)).
Proof.
  induction segments as [|ss segments IH]; [done|].
  cbn [loads_segments map]. rewrite filter_cons, IH.
  by destruct (strip ss).
Qed.

Lemma loads_segments_texts (frames : nat) (segs : list segment) :
  Forall segment_ok segs ->
  loads_segments frames (map segment_text segs)
  = parse_all frames (filter (fun t => t <> []) (map body segs)).
Proof.
  induction 1 as [|g segs Hg _ IH]; [done|].
  cbn [loads_segments map]. rewrite filter_cons, IH, (strip_segment g Hg).
  by destruct (body g).
Qed.

Lemma segments_exist (parts : list str) :
  Forall (fun p => contains (ord ";") p = false) parts ->
  exists segs, Forall segment_ok segs /\ map segment_text segs = parts.
Proof.
  induction 1 as [|p parts Hp _ (segs & Hsegs & Hmap)]; [by exists []|].
  destruct (strip_split p) as (w1 & w2 & Hw1 & Hw2 & Heq).
  exists (mkSegment w1 (strip p) w2 :: segs). split.
  - constructor; [|done]. unfold segment_ok, segment_text. cbn [lead body trail].
    split; [done|]. split; [apply trimmed_strip|]. split; [done|].
    by rewrite <- Heq.
  - cbn [map]. unfold segment_text at 1. cbn [lead body trail].
    by rewrite <- Heq, Hmap.
Qed.

Lemma parse_all_mono (frames frames' : nat) (segments : list str) :
  frames <= frames' -> parse_all frames segments <> Raise RecursionError ->
  parse_all frames' segments = parse_all frames segments.
Proof.
  intros Hle. induction segments as [|ss segments IH]; [done|].
  cbn [parse_all].
  destruct (parse_below frames ss) as [n|e|] eqn:Hp; cbn [bind].
  - rewrite (parse_below_mono frames), Hp by (done || by rewrite Hp).
    cbn [bind].
    destruct (parse_all frames segments) as [rest|e|]; cbn [bind];
      intros Hne; rewrite IH; try done; congruence.
  - intros Hne. rewrite (parse_below_mono frames), Hp; [done..|].
    rewrite Hp. congruence.
  - by destruct (parse_below_answers frames ss).
Qed.

Lemma loads_Return_mono (frames frames' : nat) (s : str) (ts : list Node) :
  frames <= frames' -> loads frames s = Return ts ->
  loads frames' s = Return ts.
Proof.
  unfold loads. rewrite !loads_segments_spec. intros Hle Hl.
  rewrite <- Hl. apply parse_all_mono; [done|]. by rewrite Hl.
Qed.

(** [C8]: a document is segments with [";"] between them, each a text
    without white space at its ends ([body]) with white space around it;
    [loads] parses the bodies that are not empty, in order, with
    [parse_node].  Every text is such a document, so this says what [loads]
    does on every text; it is the split on [";"], the trimming and the
    dropping of the empty segments.  [""] and [";;"] give the empty list. *)
Theorem loads_document :
  (forall frames segs,
     segs <> [] -> Forall segment_ok segs ->
     loads frames (join (text ";") (map segment_text segs))
     = parse_all frames (filter (fun t => t <> []) (map body segs)))
  /\ (forall s, exists segs,
        segs <> [] /\ Forall segment_ok segs
        /\ s = join (text ";") (map segment_text segs))
  /\ (forall frames s,
        loads frames s
        = parse_all frames
            (filter (fun ss => ss <> []) (map strip (split (ord ";") s))))
  /\ (forall frames, loads frames (text "") = Return [])
  /\ (forall frames, loads frames (text ";;") = Return []).
Proof.
  split; [|split; [|split; [|split]]].
  - intros frames segs Hne Hsegs. unfold loads.
    change (text ";") with [ord ";"]. rewrite split_join.
    + by apply loads_segments_texts.
    + by destruct segs.
    + apply Forall_fmap. eapply Forall_impl; [exact Hsegs|].
      by intros g (_ & _ & _ & Hg).
  - intros s.
    destruct (segments_exist (split (ord ";") s)) as (segs & Hsegs & Hmap);
      [apply split_parts|].
    exists segs. split; [|split; [done|]].
    + pose proof (split_nonempty (ord ";") s) as Hne. rewrite <- Hmap in Hne.
      by destruct segs.
    + rewrite Hmap. change (text ";") with [ord ";"]. by rewrite join_split.
  - intros frames s. apply loads_segments_spec.
  - done.
  - done.
Qed.

(** [C7]: [dumps] joins the serialisations with [";"] and a newline and ends
    with one [";"]; the empty list gives [";"]; the two trees of
    ["(a,b);(c,d);"] give ["(a,b);"], a newline, ["(c,d);"]. *)
Theorem dumps_document :
  (forall trees, dumps (inr trees)
                 = join (text ";" ++ NL) (map newick trees) ++ text ";")
  /\ dumps (inr []) = text ";"
  /\ (forall t, dumps (inr [t]) = newick t ++ text ";")
  /\ (forall t t' ts, dumps (inr (t :: t' :: ts))
                      = newick t ++ text ";" ++ NL ++ dumps (inr (t' :: ts)))
  /\ (forall n, dumps (inl n) = dumps (inr [n]))
  /\ exists t1 t2,
       (forall frames, 4 <= frames ->
          loads frames (text "(a,b);(c,d);") = Return [t1; t2])
       /\ dumps (inr [t1; t2]) = text "(a,b);" ++ NL ++ text "(c,d);".
Proof.
  repeat split; try done.
  - intros. apply dumps_cons.
  - exists (mkNode None None [leaf "a"; leaf "b"]),
           (mkNode None None [leaf "c"; leaf "d"]).
    split; [|by vm_compute].
    intros frames Hframes. apply (loads_Return_mono 4); [done|].
    by vm_compute.
Qed.
(** ** The round trip *)

Lemma Node_ind' (P : Node -> Prop) :
  (forall name length descendants,
     Forall P descendants -> P (mkNode name length descendants)) ->
  forall n, P n.
Proof.
  intros H. fix IH 1. intros [nm ln ds]. apply H.
  induction ds as [|d ds IHds]; constructor; [apply IH | apply IHds].
Qed.

Lemma Forall_nodes (P : Node -> Prop) (n : Node) :
  Forall P (nodes n) <->
  P n /\ Forall (fun d => Forall P (nodes d)) (descendants n).
Proof.
  destruct n as [nm ln ds]. simpl. rewrite Forall_cons.
  apply and_iff_compat_l. induction ds as [|d ds IH]; simpl.
  - split; constructor.
  - rewrite Forall_app, Forall_cons, IH. done.
Qed.

Lemma label_plain (n : Node) (c : char) :
  clean_label (name n) (length n) ->
  In c RESERVED_PUNCTUATION -> c <> ord ":" ->
  contains c (label n) = false.
Proof.
  intros Hclean Hin Hc. destruct (Hclean c Hin) as [Hn Hl].
  apply contains_false. unfold label, occurs in *.
  destruct (name n) as [nm|], (length n) as [[|d l]|]; simpl;
    rewrite ?text_cons, ?text_nil, ?in_app_iff; simpl; naive_solver.
Qed.

Lemma parse_label (n : Node) :
  clean_label (name n) (length n) ->
  _parse_name_and_length (label n) = (norm (name n), norm (length n)).
Proof.
  intros Hclean.
  assert (contains (ord ":") (default [] (name n)) = false) as Hname.
  { apply contains_false. intros Hin.
    destruct (Hclean (ord ":")) as [Hn _]; [by left|].
    destruct (name n) as [nm|]; [|done]. apply Hn. by exists nm. }
  unfold _parse_name_and_length, label.
  set (nm := match name n with Some s => s | None => [] end).
  assert (norm (name n) = or_None nm) as -> by (by destruct (name n)).
  change (contains (ord ":") nm = false) in Hname.
  destruct (length n) as [[|d l]|]; simpl.
  - by rewrite Hname.
  - change (text ":" ++ d :: l) with (ord ":" :: d :: l).
    rewrite contains_app, contains_cons, N.eqb_refl, orb_true_r.
    by rewrite splitn_contains.
  - by rewrite Hname.
Qed.

Lemma clean_norm (name length : option str) :
  clean_label name length -> clean_label (norm name) (norm length).
Proof.
  assert (forall c x, occurs c (norm x) -> occurs c x) as Hocc.
  { intros c [[|d s]|]; simpl; unfold occurs; naive_solver. }
  intros H c Hin. destruct (H c Hin). split; intros ?%Hocc; done.
Qed.

Lemma label_norm name length ds ds' :
  label (mkNode (norm name) (norm length) ds') = label (mkNode name length ds).
Proof. by destruct name as [[|]|], length as [[|]|]. Qed.

Lemma newick_reparse (n : Node) : newick (reparse n) = newick n.
Proof.
  induction n as [nm ln ds IH] using Node_ind'.
  rewrite (newick_unfold (mkNode nm ln ds)), (newick_unfold (reparse _)).
  cbn [reparse descendants name length]. rewrite (label_norm nm ln ds).
  assert (map newick (map reparse ds) = map newick ds) as Hds.
  { induction IH as [|d ds Hd _ IHds]; simpl; [done|]. by rewrite Hd, IHds. }
  destruct (truthy (join (text ",") (map newick ds))) eqn:Hj.
  - by rewrite Hds, Hj.
  - apply truthy_false in Hj. by rewrite Hj.
Qed.

Lemma trimmed_newick (n : Node) :
  trimmed (label n) = true -> trimmed (newick n) = true.
Proof.
  rewrite newick_unfold.
  destruct (truthy _) eqn:Hj; [|by apply truthy_false in Hj as ->].
  unfold trimmed. intros [_ Hl]%andb_true_iff.
  change (text "(") with [ord "("]. change (text ")") with [ord ")"].
  apply andb_true_iff. split; [done|].
  rewrite <- !app_assoc, !last_app. by destruct (last (label n)).
Qed.

Lemma length_join_elem (sep p : str) (parts : list str) :
  In p parts -> List.length p <= List.length (join sep parts).
Proof.
  induction parts as [|q parts IH]; [done|].
  destruct parts as [|q' parts].
  - intros [->|[]]. done.
  - rewrite join_cons by done. rewrite !length_app.
    intros [->|Hin]; [lia|]. specialize (IH Hin). lia.
Qed.

(** *** The sibling loop on a serialisation *)

Section siblings.
Variable parse : str -> result Node.

Lemma siblings_loop_plain (t rest : str) (k : Z) (cur : str) :
  contains (ord ",") t = false ->
  contains (ord "(") t = false ->
  contains (ord ")") t = false ->
  siblings_loop parse (t ++ rest) k cur
  = siblings_loop parse rest k (cur ++ t).
Proof.
  revert cur. induction t as [|c t IH]; intros cur.
  - intros _ _ _. by rewrite app_nil_r.
  - rewrite !contains_cons.
    intros [Hc1 H1]%orb_false_iff [Hc2 H2]%orb_false_iff
           [Hc3 H3]%orb_false_iff.
    simpl. rewrite (N.eqb_sym c), Hc1, (N.eqb_sym c), Hc2, (N.eqb_sym c), Hc3.
    simpl. rewrite IH by done. by rewrite <- app_assoc.
Qed.

Lemma siblings_loop_open (rest : str) (k : Z) (cur : str) :
  siblings_loop parse (ord "(" :: rest) k cur
  = siblings_loop parse rest (k + 1) (cur ++ [ord "("]).
Proof. done. Qed.

Lemma siblings_loop_close (rest : str) (k : Z) (cur : str) :
  siblings_loop parse (ord ")" :: rest) k cur
  = siblings_loop parse rest (k - 1) (cur ++ [ord ")"]).
Proof. done. Qed.

Lemma siblings_loop_inner_comma (rest : str) (k : Z) (cur : str) :
  k <> 0%Z ->
  siblings_loop parse (ord "," :: rest) k cur
  = siblings_loop parse rest k (cur ++ [ord ","]).
Proof.
  intros Hk. simpl. by destruct (Z.eqb_spec k 0).
Qed.

Lemma siblings_loop_outer_comma (rest cur : str) :
  siblings_loop parse (ord "," :: rest) 0 cur
  = (n <- parse cur;;
     rest <- siblings_loop parse rest 0 [];;
     Return (n :: rest)).
Proof. done. Qed.

Lemma skipped_join (parts : list str) :
  Forall (skipped parse) parts ->
  forall rest k cur, (0 < k)%Z ->
    siblings_loop parse (join (text ",") parts ++ rest) k cur
    = siblings_loop parse rest k (cur ++ join (text ",") parts).
Proof.
  induction 1 as [|p parts Hp Hparts IH]; intros rest k cur Hk.
  - by rewrite app_nil_r.
  - destruct parts as [|q parts]; [apply Hp; lia|].
    rewrite join_cons by done. change (text ",") with [ord ","].
    rewrite <- !app_assoc. rewrite Hp by lia. cbn [app].
    rewrite siblings_loop_inner_comma by lia.
    change [ord ","] with (text ",") in IH. rewrite IH by done.
    by rewrite <- !app_assoc.
Qed.

Lemma skipped_newick (n : Node) : constructed n -> skipped parse (newick n).
Proof.
  induction n as [nm ln ds IH] using Node_ind'.
  intros [Hclean Hds]%Forall_nodes. simpl in Hclean, Hds.
  assert (Forall (skipped parse) (map newick ds)) as Hskip.
  { apply Forall_fmap. rewrite Forall_forall in IH, Hds |- *.
    intros d Hd. apply IH; [done|]. by apply Hds. }
  assert (skipped parse (label (mkNode nm ln ds))) as Hlabel.
  { intros rest k cur _.
    apply siblings_loop_plain; apply label_plain; simpl; try done.
    - right. right. by left.
    - right. right. right. by left.
    - right. right. right. right. by left. }
  intros rest k cur Hk. rewrite newick_unfold. simpl descendants.
  destruct (truthy _) eqn:Hj.
  - change (text "(") with [ord "("]. change (text ")") with [ord ")"].
    rewrite <- !app_assoc. cbn [app]. rewrite siblings_loop_open.
    rewrite skipped_join by (done || lia). cbn [app].
    rewrite siblings_loop_close.
    replace (k + 1 - 1)%Z with k by lia.
    rewrite Hlabel by done. by rewrite <- !app_assoc.
  - apply truthy_false in Hj as ->. by apply Hlabel.
Qed.

(** The loop gives back the siblings of a joined serialisation, one by
    one. *)
Lemma siblings_loop_join (ds : list Node) (f : Node -> Node) :
  ds <> [] ->
  Forall constructed ds ->
  Forall (fun d => parse (newick d) = Return (f d)) ds ->
  siblings_loop parse (join (text ",") (map newick ds) ++ text ",") 0 []
  = Return (map f ds).
Proof.
  intros Hne Hcon Hparse. induction ds as [|d ds IH]; [done|].
  apply Forall_cons in Hcon as [Hcd Hcds].
  apply Forall_cons in Hparse as [Hd Hds].
  destruct ds as [|d' ds].
  - cbn [map join]. rewrite (skipped_newick d Hcd) by done.
    change (text ",") with [ord ","]. cbn [app].
    by rewrite siblings_loop_outer_comma, Hd.
  - change (map newick (d :: d' :: ds))
      with (newick d :: map newick (d' :: ds)).
    rewrite join_cons by done. rewrite <- !app_assoc.
    rewrite (skipped_newick d Hcd) by done.
    change (text "," ++ ?x) with (ord "," :: x). cbn [app].
    rewrite siblings_loop_outer_comma, Hd. cbn [bind].
    by rewrite IH.
Qed.
End siblings.

Lemma trimmed_texts_Forall (n : Node) :
  trimmed_texts n = true <->
  Forall (fun m => trimmed (newick m) = true) (nodes n).
Proof.
  unfold trimmed_texts. rewrite forallb_forall, List.Forall_forall. done.
Qed.

Lemma trimmed_labels_Forall (n : Node) :
  trimmed_labels n = true <->
  Forall (fun m => trimmed (label m) = true) (nodes n).
Proof.
  unfold trimmed_labels. rewrite forallb_forall, List.Forall_forall. done.
Qed.

Lemma trimmed_labels_texts (n : Node) :
  trimmed_labels n = true -> trimmed_texts n = true.
Proof.
  rewrite trimmed_labels_Forall, trimmed_texts_Forall. intros Hn.
  eapply Forall_impl; [exact Hn|]. intros m. apply trimmed_newick.
Qed.

Lemma max_list_lt (k : nat) (l : list nat) :
  k < max_list l -> exists x, x ∈ l /\ k < x.
Proof.
  induction l as [|y l IH]; simpl; [lia|]. intros Hk.
  destruct (decide (k < y)) as [Hy|Hy].
  - exists y. split; [left | done].
  - destruct IH as (x & Hx & Hkx); [lia|]. exists x. split; [by right | done].
Qed.

(** The loop stops at the first sibling on which [parse_node] raises. *)
Lemma siblings_loop_join_Raise parse (ds : list Node) (e : exn) :
  Forall constructed ds ->
  Forall (fun d => (exists d', parse (newick d) = Return d')
                   \/ parse (newick d) = Raise e) ds ->
  Exists (fun d => parse (newick d) = Raise e) ds ->
  siblings_loop parse (join (text ",") (map newick ds) ++ text ",") 0 []
  = Raise e.
Proof.
  intros Hcon Hparse Hex. induction ds as [|d ds IH]; [by apply Exists_nil in Hex|].
  apply Forall_cons in Hcon as [Hcd Hcds].
  apply Forall_cons in Hparse as [Hd Hds].
  destruct ds as [|d' ds].
  - cbn [map join]. rewrite (skipped_newick parse d Hcd) by done.
    change (text ",") with [ord ","]. cbn [app].
    rewrite siblings_loop_outer_comma.
    apply Exists_cons in Hex as [->|Hex]; [done | by apply Exists_nil in Hex].
  - change (map newick (d :: d' :: ds))
      with (newick d :: map newick (d' :: ds)).
    rewrite join_cons by done. rewrite <- !app_assoc.
    rewrite (skipped_newick parse d Hcd) by done.
    change (text "," ++ ?x) with (ord "," :: x). cbn [app].
    rewrite siblings_loop_outer_comma.
    destruct Hd as [[x Hx]|Hx]; rewrite Hx; cbn [bind]; [|done].
    rewrite IH; [done..|].
    apply Exists_cons in Hex as [Hex|Hex]; [congruence | done].
Qed.

(** What [parse_node] does on the serialisation of a tree: with the room
    that the tree takes it rebuilds the tree, up to the empty names and
    lengths and the descendants without text; with less, the stack fills
    up. *)
Lemma parse_newick_room (n : Node) :
  constructed n -> trimmed_texts n = true ->
  forall frames,
    parse_node frames (newick n)
    = if decide (parse_room n <= frames) then Return (reparse n)
      else Raise RecursionError.
Proof.
  rewrite trimmed_texts_Forall.
  induction n as [nm ln ds IH] using Node_ind'.
  intros [Hclean Hcds]%Forall_nodes [Htrim Htds]%Forall_nodes frames.
  cbn [name length descendants] in Hclean, Hcds, Htds.
  set (n := mkNode nm ln ds) in *.
  assert (_parse_name_and_length (label n) = (norm nm, norm ln)) as Hlabel
    by by apply parse_label.
  assert (contains (ord ")") (label n) = false) as Hclose.
  { apply label_plain; [done| |done]. do 4 right. by left. }
  assert (strip (newick n) = newick n) as Hstrip by by apply strip_trimmed.
  clear Htrim. revert Hstrip. rewrite newick_unfold.
  cbn [descendants reparse parse_room n name length].
  set (j := join (text ",") (map newick ds)).
  destruct (truthy j) eqn:Hj.
  - change (text "(") with [ord "("]. change (text ")") with [ord ")"].
    intros Hstrip.
    replace (([ord "("] ++ j ++ [ord ")"]) ++ label n)
      with ((ord "(" :: j) ++ ord ")" :: label n) in *
      by (by rewrite <- !app_assoc).
    assert ((List.length
               (split (ord ")") ((ord "(" :: j) ++ ord ")" :: label n)) =? 1)%nat
            = false) as Hparts.
    { rewrite split_app, (split_no_sep _ (label n)) by done.
      pose proof (split_nonempty (ord ")") (ord "(" :: j)) as Hne.
      rewrite length_app. cbn [List.length]. apply Nat.eqb_neq.
      destruct (split (ord ")") (ord "(" :: j)); [done | simpl; lia]. }
    assert (startswith
              (default [] (head (split (ord ")")
                                   ((ord "(" :: j) ++ ord ")" :: label n))))
              [ord "("] = true) as Hstart.
    { rewrite startswith_head_split by done.
      by rewrite <- app_comm_cons, startswith_cons. }
    assert (ds <> []) as Hds by (by intros ->).
    destruct frames as [|[|room]].
    + rewrite parse_node_0, Hstrip, Hparts.
      change (text "(") with [ord "("]. rewrite Hstart. cbn [negb].
      by rewrite decide_False by lia.
    + rewrite parse_node_S, Hstrip, Hparts.
      change (text "(") with [ord "("]. rewrite Hstart. cbn [negb].
      rewrite split_app, (split_no_sep _ (label n)) by done.
      rewrite but_last_snoc, last_part_snoc. change (text ")") with [ord ")"].
      rewrite join_split. cbn [drop]. unfold _parse_siblings. fold j.
      rewrite (siblings_loop_join_Raise _ ds RecursionError); [|done| |].
      * cbn [bind]. by rewrite decide_False by lia.
      * apply Forall_forall. intros d _. by right.
      * destruct ds as [|d ds']; [done|]. by left.
    + rewrite parse_node_S, Hstrip, Hparts.
      change (text "(") with [ord "("]. rewrite Hstart. cbn [negb].
      rewrite split_app, (split_no_sep _ (label n)) by done.
      rewrite but_last_snoc, last_part_snoc. change (text ")") with [ord ")"].
      rewrite join_split. cbn [drop]. unfold _parse_siblings. fold j.
      assert (Forall (fun d => parse_below (S room) (newick d)
                               = if decide (parse_room d <= room)
                                 then Return (reparse d)
                                 else Raise RecursionError) ds) as Hall.
      { rewrite Forall_forall in IH, Hcds, Htds |- *. intros d Hd.
        rewrite parse_below_S. by apply IH; [|apply Hcds|apply Htds]. }
      destruct (decide (2 + max_list (map parse_room ds) <= S (S room)))
        as [Hroom|Hroom].
      * rewrite (siblings_loop_join _ ds reparse); [|done|done|].
        { cbn [bind]. rewrite Hlabel.
          by rewrite Node_init_clean by by apply clean_norm. }
        rewrite Forall_forall in Hall |- *. intros d Hd.
        rewrite (Hall d Hd), decide_True; [done|].
        assert (parse_room d <= max_list (map parse_room ds)); [|lia].
        apply max_list_elem_of_le, list_elem_of_fmap. by exists d.
      * rewrite (siblings_loop_join_Raise _ ds RecursionError); [done|done| |].
        { eapply Forall_impl; [exact Hall|]. intros d ->.
          destruct (decide _); [left; eauto | by right]. }
        destruct (max_list_lt room (map parse_room ds)) as (x & Hx & Hlt);
          [lia|].
        apply list_elem_of_fmap in Hx as (d & -> & Hd).
        apply Exists_exists. exists d. split; [done|].
        rewrite Forall_forall in Hall. rewrite (Hall d Hd).
        by rewrite decide_False by lia.
  - apply truthy_false in Hj. rewrite Hj. cbn [app]. intros Hstrip.
    assert ((List.length (split (ord ")") (label n)) =? 1)%nat = true)
      as Hparts by (by rewrite split_no_sep).
    destruct frames as [|room].
    + rewrite parse_node_0, Hstrip, Hparts. by rewrite decide_False by lia.
    + rewrite parse_node_S, Hstrip, Hparts.
      cbn [bind]. rewrite Hlabel, decide_True by lia.
      by rewrite Node_init_clean by by apply clean_norm.
Qed.

Lemma constructed_check (n : Node) :
  forallb (fun m => match check_reserved RESERVED_PUNCTUATION
                            (name m) (length m) with
                    | Return _ => true
                    | _ => false
                    end) (nodes n) = true ->
  constructed n.
Proof.
  rewrite forallb_forall. intros Hok. apply List.Forall_forall.
  intros m Hm. specialize (Hok m Hm).
  destruct (check_reserved_cases RESERVED_PUNCTUATION (name m) (length m))
    as [[_ Hall]|(c & _ & _ & Hraise)]; [done|]. by rewrite Hraise in Hok.
Qed.

(** Two trees built by valid constructions.  The name of the first begins
    with a blank: its serialisation is parsed to a tree that serialises
    without the blank.  The second is a chain of 501 nodes, each the only
    descendant of the one before: parsing its serialisation fills the stack
    of an interpreter with its default limit of 1000 frames. *)
Lemma newick_round_trip_blank :
  let T := mkNode (Some (text " a")) None [] in
  Node_init (Some (text " a")) None None = Return T
  /\ (exists T', parse_node 1000 (newick T) = Return T'
        /\ newick T = text " a" /\ newick T' = text "a"
        /\ newick T' <> newick T)
  /\ constructed (chain 500)
  /\ parse_node 1000 (newick (chain 500)) = Raise RecursionError.
Proof.
  split; [by vm_compute|]. split.
  - exists (mkNode (Some (text "a")) None []). by vm_compute.
  - split; [apply constructed_check|]; by vm_compute.
Qed.

(** [C1], amended: for a tree built by valid constructions, in which the
    serialisation of no subtree begins or ends with white space, and for
    which the stack has room (two frames for each level of parentheses and
    one more), parsing the serialisation gives a tree that serialises to
    the same text. *)
Theorem parse_newick_round_trip (frames : nat) (T : Node) :
  constructed T -> trimmed_texts T = true -> parse_room T <= frames ->
  exists T', parse_node frames (newick T) = Return T' /\ newick T' = newick T.
Proof.
  intros Hcon Htrim Hroom. exists (reparse T). split; [|apply newick_reparse].
  by rewrite parse_newick_room, decide_True.
Qed.

Lemma parse_newick_round_trip_witness :
  let T := mkNode (Some (text " e")) None
             [leaf "a";
              mkNode (Some (text " d e")) (Some (text "1.5"))
                [leaf "b"; mkNode None (Some (text "2")) []]] in
  exists T', parse_node 5 (newick T) = Return T' /\ newick T' = newick T.
Proof.
  intros T. apply (parse_newick_round_trip 5 T); [|by vm_compute..].
  apply constructed_check. by vm_compute.
Defined.

(** ** Objects and traversal *)

(** *** Trees in the store *)

Lemma ltree_ind' (P : ltree -> Prop) :
  (forall a nm ln l cs, Forall P cs -> P (LNode a nm ln l cs)) ->
  forall t, P t.
Proof.
  intros H. fix IH 1. intros [a nm ln l cs]. apply H.
  induction cs as [|c cs IHcs]; constructor; [apply IH | apply IHcs].
Qed.

Lemma Forall_subtrees (P : ltree -> Prop) (t : ltree) :
  Forall P (subtrees t) <->
  P t /\ Forall (fun c => Forall P (subtrees c)) (children t).
Proof.
  destruct t as [a nm ln l cs]. simpl. rewrite Forall_cons.
  apply and_iff_compat_l. induction cs as [|c cs IH]; simpl.
  - split; constructor.
  - by rewrite Forall_app, Forall_cons, IH.
Qed.

Lemma preorder_subtrees (t : ltree) : preorder t = map root (subtrees t).
Proof.
  induction t as [a nm ln l cs IH] using ltree_ind'. simpl. f_equal.
  induction IH as [|c cs Hc _ IHcs]; simpl; [done|].
  by rewrite map_app, Hc, IHcs.
Qed.

Lemma get_descendants_holds (st : store) (s : ltree) :
  holds st s -> get_descendants st (root s) = Return (map root (children s)).
Proof.
  intros [Hn Hl]. unfold get_descendants. rewrite Hn.
  destruct s as [a nm ln l cs]. simpl in *. by rewrite Hl.
Qed.

(** *** The default walk *)

Lemma walk_default_0 (st : store) (a : addr) :
  walk_default 0 st a = Raise RecursionError.
Proof. done. Qed.

Lemma walk_default_S (room : nat) (st : store) (a : addr) :
  walk_default (S room) st a
  = (descendants <- get_descendants st a;;
     rest <- for_each (walk_default room st) descendants;;
     Return (a :: rest)).
Proof. done. Qed.

Lemma get_descendants_weaken (st st' : store) (x : addr) (items : list addr) :
  st ⊆ st' -> get_descendants st x = Return items ->
  get_descendants st' x = Return items.
Proof.
  intros Hsub. unfold get_descendants.
  destruct (st !! x) as [[nm ln d|]|] eqn:Hx; try done.
  destruct (st !! d) as [[|its]|] eqn:Hd; try done.
  intros [= <-].
  by rewrite (lookup_weaken _ _ _ _ Hx Hsub), (lookup_weaken _ _ _ _ Hd Hsub).
Qed.

Lemma get_descendants_Raise (st : store) (x : addr) (e : exn) :
  get_descendants st x = Raise e -> e = AttributeError.
Proof.
  unfold get_descendants.
  destruct (st !! x) as [[nm ln d|]|]; try (by intros [= <-]).
  destruct (st !! d) as [[|its]|]; try done; by intros [= <-].
Qed.

Lemma get_descendants_answers (st : store) (x : addr) :
  get_descendants st x <> OutOfFuel.
Proof.
  unfold get_descendants.
  destruct (st !! x) as [[nm ln d|]|]; try done.
  by destruct (st !! d) as [[|its]|].
Qed.

Lemma for_each_Return (f : addr -> result (list addr)) (items r : list addr) :
  for_each f items = Return r ->
  (forall y, y ∈ items -> exists ly, f y = Return ly /\ forall z, z ∈ ly -> z ∈ r)
  /\ (forall z, z ∈ r -> exists y ly, y ∈ items /\ f y = Return ly /\ z ∈ ly).
Proof.
  revert r. induction items as [|x items IH]; intros r; cbn [for_each].
  - intros [= <-]. split; [by intros y ?%elem_of_nil | by intros z ?%elem_of_nil].
  - destruct (f x) as [lx| |] eqn:Hx; cbn [bind]; [|done..].
    destruct (for_each f items) as [rest| |]; cbn [bind]; [|done..].
    intros [= <-]. destruct (IH rest eq_refl) as [IH1 IH2]. split.
    + intros y [->|Hy]%elem_of_cons.
      * exists lx. split; [done|]. intros z Hz. apply elem_of_app. by left.
      * destruct (IH1 y Hy) as (ly & Hly & Hsub). exists ly. split; [done|].
        intros z Hz. apply elem_of_app. right. by apply Hsub.
    + intros z [Hz|Hz]%elem_of_app.
      * exists x, lx. split; [left|done].
      * destruct (IH2 z Hz) as (y & ly & Hy & Hly & Hzy).
        exists y, ly. split; [by right | done].
Qed.

Lemma for_each_Raise (f : addr -> result (list addr)) (items : list addr)
    (e : exn) :
  for_each f items = Raise e -> exists y, f y = Raise e.
Proof.
  induction items as [|x items IH]; cbn [for_each]; [done|].
  destruct (f x) as [lx|e'|] eqn:Hx; cbn [bind]; [| |done].
  - destruct (for_each f items) as [rest|e'|]; cbn [bind]; [done| |done].
    intros [= <-]. by apply IH.
  - intros [= <-]. by exists x.
Qed.

Lemma for_each_answers (f : addr -> result (list addr)) (items : list addr) :
  (forall y, f y <> OutOfFuel) -> for_each f items <> OutOfFuel.
Proof.
  intros Hf. induction items as [|x items IH]; cbn [for_each]; [done|].
  specialize (Hf x). destruct (f x); cbn [bind]; [|done..].
  by destruct (for_each f items).
Qed.

Lemma for_each_trees (f : addr -> result (list addr)) (cs : list ltree) :
  Forall (fun c => f (root c) = Return (preorder c)) cs ->
  for_each f (map root cs) = Return (concat (map preorder cs)).
Proof.
  induction 1 as [|c cs Hc _ IH]; simpl; [done|]. by rewrite Hc, IH.
Qed.

Lemma for_each_trees_Raise (f : addr -> result (list addr))
    (cs : list ltree) (e : exn) :
  Forall (fun c => f (root c) = Return (preorder c) \/ f (root c) = Raise e)
    cs ->
  Exists (fun c => f (root c) = Raise e) cs ->
  for_each f (map root cs) = Raise e.
Proof.
  induction 1 as [|c cs Hc _ IH]; intros Hex; [by apply Exists_nil in Hex|].
  cbn [map for_each]. destruct Hc as [Hc|Hc]; rewrite Hc; cbn [bind]; [|done].
  rewrite IH; [done|]. apply Exists_cons in Hex as [Hex|Hex]; [congruence|done].
Qed.

(** The default walk of a tree: with a frame for each node on the longest
    path it yields the nodes, each before its descendants; with less, the
    stack fills up. *)
Lemma walk_default_tree (st : store) (t : ltree) :
  is_tree st t ->
  forall frames,
    walk_default frames st (root t)
    = if decide (depth t <= frames) then Return (preorder t)
      else Raise RecursionError.
Proof.
  induction t as [a nm ln l cs IH] using ltree_ind'.
  intros [Hholds Hcs]%Forall_subtrees frames. cbn [children] in Hcs.
  cbn [depth children root preorder].
  destruct frames as [|room]; [by rewrite walk_default_0, decide_False by lia|].
  pose proof (get_descendants_holds _ _ Hholds) as Hget.
  cbn [root children] in Hget. rewrite walk_default_S, Hget. cbn [bind].
  assert (Forall (fun c => walk_default room st (root c)
                           = if decide (depth c <= room)
                             then Return (preorder c)
                             else Raise RecursionError) cs) as Hall.
  { rewrite Forall_forall in IH, Hcs |- *. intros c Hc. by apply IH, Hcs. }
  destruct (decide (S (max_list (map depth cs)) <= S room)) as [Hroom|Hroom].
  - rewrite for_each_trees; [done|].
    rewrite Forall_forall in Hall |- *. intros c Hc.
    rewrite (Hall c Hc), decide_True; [done|].
    assert (depth c <= max_list (map depth cs)); [|lia].
    apply max_list_elem_of_le, list_elem_of_fmap. by exists c.
  - rewrite (for_each_trees_Raise _ _ RecursionError); [done| |].
    + eapply Forall_impl; [exact Hall|]. intros c ->.
      destruct (decide _); [by left | by right].
    + destruct (max_list_lt room (map depth cs)) as (x & Hx & Hlt); [lia|].
      apply list_elem_of_fmap in Hx as (c & -> & Hc).
      apply Exists_exists. exists c. split; [done|].
      rewrite Forall_forall in Hall. rewrite (Hall c Hc).
      by rewrite decide_False by lia.
Qed.

(** The nodes that the default walk yields are closed under descendants. *)
Lemma walk_default_closed (frames : nat) (st : store) (a : addr)
    (l : list addr) :
  walk_default frames st a = Return l ->
  a ∈ l
  /\ forall x, x ∈ l ->
       exists items, get_descendants st x = Return items
                     /\ forall y, y ∈ items -> y ∈ l.
Proof.
  revert a l. induction frames as [|room IH]; intros a l; [done|].
  rewrite walk_default_S.
  destruct (get_descendants st a) as [items| |] eqn:Ha; cbn [bind]; [|done..].
  destruct (for_each (walk_default room st) items) as [rest| |] eqn:Hrest;
    cbn [bind]; [|done..].
  intros [= <-]. apply for_each_Return in Hrest as [H1 H2].
  split; [left|]. intros x [->|Hx]%elem_of_cons.
  - exists items. split; [done|]. intros y Hy. right.
    destruct (H1 y Hy) as (ly & Hly & Hsub). apply Hsub.
    by apply IH in Hly as [? _].
  - destruct (H2 x Hx) as (y & ly & Hy & Hly & Hxy).
    destruct (IH _ _ Hly) as [_ Hclosed].
    destruct (Hclosed x Hxy) as (its & Hits & Hsub).
    exists its. split; [done|]. intros z Hz. right.
    destruct (H1 y Hy) as (ly' & Hly' & Hsub').
    rewrite Hly in Hly'. injection Hly' as <-. apply Hsub'. by apply Hsub.
Qed.

Lemma walk_default_Raise (frames : nat) (st : store) (a : addr) (e : exn) :
  walk_default frames st a = Raise e ->
  e = RecursionError \/ e = AttributeError.
Proof.
  revert a. induction frames as [|room IH]; intros a.
  { rewrite walk_default_0. intros [= <-]. by left. }
  rewrite walk_default_S.
  destruct (get_descendants st a) as [items|e'|] eqn:Ha; cbn [bind]; [| |done].
  - destruct (for_each (walk_default room st) items) as [rest|e'|] eqn:Hrest;
      cbn [bind]; [done| |done].
    intros [= <-]. apply for_each_Raise in Hrest as [y Hy]. by eapply IH.
  - intros [= <-]. right. by eapply get_descendants_Raise.
Qed.

Lemma walk_default_answers (frames : nat) (st : store) (a : addr) :
  walk_default frames st a <> OutOfFuel.
Proof.
  revert a. induction frames as [|room IH]; intros a; [done|].
  rewrite walk_default_S. pose proof (get_descendants_answers st a) as Ha.
  destruct (get_descendants st a) as [items| |]; cbn [bind]; [|done..].
  pose proof (for_each_answers (walk_default room st) items IH) as Hrest.
  by destruct (for_each (walk_default room st) items).
Qed.

(** Where the default walk returns from a node, it returns from each of its
    descendants with one frame less. *)
Lemma walk_default_child (room : nat) (st : store) (x y : addr)
    (l : list addr) :
  walk_default (S room) st x = Return l -> child st x y ->
  exists ly, walk_default room st y = Return ly.
Proof.
  rewrite walk_default_S. intros Hx (items & Hitems & Hy).
  rewrite Hitems in Hx. cbn [bind] in Hx.
  destruct (for_each (walk_default room st) items) as [rest| |] eqn:Hrest;
    [|done..].
  apply for_each_Return in Hrest as [H1 _].
  destruct (H1 y Hy) as (ly & Hly & _). by exists ly.
Qed.

(** *** The post-order loop on a tree *)

Section postorder.
Variable dmap : gmap addr addr.
Hypothesis dmap_inj :
  forall x y l, dmap !! x = Some l -> dmap !! y = Some l -> x = y.

Lemma loop_push (st : store) (stack : list addr) (a la first : addr)
    (rest : list addr) (k : nat) :
  dmap !! a = Some la -> st !! la = Some (OList (first :: rest)) ->
  postorder_loop (S k) st (stack ++ [a]) dmap
  = postorder_loop k st ((stack ++ [a]) ++ [first]) dmap.
Proof. intros Ha Hla. cbn [postorder_loop]. by rewrite last_snoc, Ha, Hla. Qed.

Lemma loop_pop (st : store) (stack : list addr) (a la : addr) (k : nat) :
  dmap !! a = Some la -> st !! la = Some (OList []) ->
  postorder_loop (S k) st (stack ++ [a]) dmap
  = (st' <- pop_first st stack dmap;;
     r <- postorder_loop k st' stack dmap;;
     Return (a :: r.1, r.2)).
Proof.
  intros Ha Hla. cbn [postorder_loop].
  by rewrite last_snoc, Ha, Hla, but_last_snoc.
Qed.

Lemma full_untouched (X : list addr) (st st' : store) (s : ltree) :
  untouched dmap X st st' -> root s ∉ X -> full dmap st s -> full dmap st' s.
Proof.
  intros Hun Hs (l & Hl & Hst). exists l. split; [done|].
  rewrite Hun; [done|]. intros x Hx Hxl.
  by rewrite (dmap_inj _ _ _ Hxl Hl) in Hx.
Qed.

Lemma root_in_preorder (s t : ltree) : s ∈ subtrees t -> root s ∈ preorder t.
Proof. rewrite preorder_subtrees. apply list_elem_of_fmap_2. Qed.

Lemma loop_children (cs : list ltree) :
  Forall (subtree_spec dmap) cs ->
  forall a la st stack k,
    dmap !! a = Some la ->
    st !! la = Some (OList (map root cs)) ->
    Forall (fun c => Forall (full dmap st) (subtrees c)) cs ->
    NoDup (a :: concat (map preorder cs)) ->
    parent_waits dmap st stack a (a :: concat (map preorder cs)) ->
    exists st',
      postorder_loop (2 * List.length (concat (map preorder cs)) + 1 + k)
        st (stack ++ [a]) dmap
      = (r <- postorder_loop k st' stack dmap;;
         Return (concat (map postorder cs) ++ a :: r.1, r.2))
      /\ untouched dmap
           ((a :: concat (map preorder cs)) ++ option_list (last stack))
           st st'
      /\ parent_popped dmap st st' stack a.
Proof.
  induction 1 as [|c cs Hc _ IH]; intros a la st stack k Ha Hla Hfull Hnd Hp.
  - cbn [map concat List.length Nat.mul Nat.add app].
    rewrite (loop_pop _ _ _ la) by done.
    unfold pop_first, untouched, parent_popped.
    destruct (last stack) as [p|] eqn:Hlast.
    + destruct (Hp p Hlast) as (Hpa & lp & more & Hlp & Hst).
      rewrite Hlp, Hst. cbn [bind].
      exists (<[lp := OList more]> st). split; [done|]. split.
      * intros l Hl. apply lookup_insert_ne. intros <-.
        apply (Hl p); [|done]. set_solver.
      * intros p' lp' more' [= ->] Hlp' Hst'. simplify_eq.
        apply lookup_insert_eq.
    + cbn [bind]. exists st. split; [done|]. split; [by intros l _|].
      by intros p lp more.
  - cbn [map concat] in *.
    apply Forall_cons in Hfull as [Hfc Hfcs].
    apply NoDup_cons in Hnd as [Hna Hnd].
    apply NoDup_app in Hnd as (Hndc & Hdisj & Hndcs).
    rewrite length_app.
    replace (2 * (List.length (preorder c)
                  + List.length (concat (map preorder cs))) + 1 + k)
      with (S (2 * List.length (preorder c)
               + (2 * List.length (concat (map preorder cs)) + k)))
      by lia.
    rewrite (loop_push _ _ _ la (root c) (map root cs)) by done.
    destruct (Hc st (stack ++ [a])
                (2 * List.length (concat (map preorder cs)) + k))
      as (st1 & Heq1 & Hun1 & Hpop1); [done..| |].
    { intros p. rewrite last_snoc. intros [= <-]. split; [set_solver|].
      by exists la, (map root cs). }
    rewrite last_snoc in Hun1. cbn [option_list] in Hun1.
    assert (st1 !! la = Some (OList (map root cs))) as Hla1.
    { apply (Hpop1 a la); [by rewrite last_snoc | done..]. }
    destruct (IH a la st1 stack k) as (st2 & Heq2 & Hun2 & Hpop2);
      [done..| | | |].
    { rewrite Forall_forall in Hfcs |- *. intros c' Hc'.
      specialize (Hfcs c' Hc'). rewrite Forall_forall in Hfcs |- *.
      intros s Hs.
      apply (full_untouched (preorder c ++ [a]) st); [done| |by apply Hfcs].
      assert (root s ∈ concat (map preorder cs)) as Hin.
      { apply list_elem_of_In, in_concat. exists (preorder c').
        split; [apply in_map; by apply list_elem_of_In|].
        by apply list_elem_of_In, root_in_preorder. }
      intros [Hin'|Heq%list_elem_of_singleton]%elem_of_app.
      - by apply (Hdisj (root s)).
      - apply Hna. rewrite <- Heq. set_solver. }
    { apply NoDup_cons. split; [set_solver | done]. }
    { intros p Hlast. destruct (Hp p Hlast) as (Hpa & lp & more & Hlp & Hst).
      split; [set_solver|]. exists lp, more. split; [done|].
      rewrite Hun1; [done|]. intros x Hx Hxl.
      rewrite (dmap_inj _ _ _ Hxl Hlp) in Hx. set_solver. }
    exists st2. split; [|split].
    + rewrite Heq1.
      replace (S (2 * List.length (concat (map preorder cs)) + k))
        with (2 * List.length (concat (map preorder cs)) + 1 + k) by lia.
      rewrite Heq2. destruct (postorder_loop k st2 stack dmap); [|done..].
      cbn [bind fst snd]. by rewrite <- !app_assoc.
    + intros l Hl. rewrite Hun2, Hun1; [done|..].
      * intros x Hx. apply Hl. set_solver.
      * intros x Hx. apply Hl. set_solver.
    + intros p lp more Hlast Hlp Hst. apply (Hpop2 p); [done..|].
      rewrite Hun1; [done|]. intros x Hx Hxl.
      rewrite (dmap_inj _ _ _ Hxl Hlp) in Hx.
      destruct (Hp p Hlast) as [Hpa _]. set_solver.
Qed.

Lemma loop_subtree (t : ltree) : subtree_spec dmap t.
Proof.
  induction t as [a nm ln l cs IH] using ltree_ind'.
  intros st stack k [Hfull Hfcs]%Forall_subtrees Hnd Hp.
  destruct Hfull as (la & Ha & Hla). cbn [root children preorder] in *.
  destruct (loop_children cs IH a la st stack (S k))
    as (st' & Heq & Hun & Hpop); [done..|].
  exists st'. split; [|done].
  cbn [List.length postorder children root].
  replace (2 * S (List.length (concat (map preorder cs))) + k)
    with (2 * List.length (concat (map preorder cs)) + 1 + S k) by lia.
  rewrite Heq.
  destruct (postorder_loop (S k) st' stack dmap); [|done..].
  cbn [bind]. by rewrite <- !app_assoc.
Qed.
End postorder.

(** *** The dictionary of [_postorder] *)

Lemma holds_weaken (st st' : store) (s : ltree) :
  st ⊆ st' -> holds st s -> holds st' s.
Proof. intros Hsub [Hn Hl]. split; by eapply lookup_weaken. Qed.

Lemma copy_descendants_trees (ss : list ltree) :
  forall (st : store) (dm : gmap addr addr),
    Forall (holds st) ss ->
    NoDup (map root ss) ->
    (forall x l, dm !! x = Some l -> l ∈ dom st) ->
    (forall x y l, dm !! x = Some l -> dm !! y = Some l -> x = y) ->
    exists st' dm',
      copy_descendants (map root ss) st dm = Return (st', dm')
      /\ st ⊆ st'
      /\ (forall x l, dm' !! x = Some l -> l ∈ dom st')
      /\ (forall x y l, dm' !! x = Some l -> dm' !! y = Some l -> x = y)
      /\ (forall x l, dm' !! x = Some l -> dm !! x = Some l \/ l ∉ dom st)
      /\ (forall x, x ∉ map root ss -> dm' !! x = dm !! x)
      /\ (forall s, s ∈ ss ->
            exists l, dm' !! root s = Some l
                      /\ st' !! l = Some (OList (map root (children s)))).
Proof.
  induction ss as [|s ss IH]; intros st dm Hholds Hnd Hdom Hinj.
  - exists st, dm. split; [done|]. split; [done|]. split; [done|].
    split; [done|]. split; [by left|]. split; [done|].
    intros s Hs. by apply elem_of_nil in Hs.
  - apply Forall_cons in Hholds as [Hs Hss].
    cbn [map] in Hnd. apply NoDup_cons in Hnd as [Hns Hnd].
    cbn [map copy_descendants]. rewrite (get_descendants_holds _ _ Hs).
    cbn [bind]. pose proof (is_fresh (dom st)) as Hl.
    set (l := fresh (dom st)) in *. clearbody l.
    assert (st ⊆ <[l := OList (map root (children s))]> st) as Hsub.
    { apply insert_subseteq. by apply not_elem_of_dom. }
    destruct (IH (<[l := OList (map root (children s))]> st)
                 (<[root s := l]> dm))
      as (st' & dm' & Heq & Hsub' & Hdom' & Hinj' & Horig & Hother & Hall).
    { eapply Forall_impl; [done|]. intros s'. by apply holds_weaken. }
    { done. }
    { intros x l' [[<- <-]|[_ Hx]]%lookup_insert_Some; rewrite dom_insert_L.
      - set_solver.
      - apply elem_of_union. right. by eapply Hdom. }
    { intros x y l' [[<- <-]|[Hxs Hx]]%lookup_insert_Some
                    [[<- Hl']|[Hys Hy]]%lookup_insert_Some; try done.
      - destruct Hl. by eapply Hdom.
      - subst l'. destruct Hl. by eapply Hdom.
      - by eapply Hinj. }
    exists st', dm'. split; [done|]. split; [by etrans|].
    split; [done|]. split; [done|]. split; [|split].
    + intros x l' Hx. destruct (Horig x l' Hx) as [Hx'|Hfresh].
      * apply lookup_insert_Some in Hx' as [[<- <-]|[_ Hx']]; [by right|by left].
      * right. intros Hin. apply Hfresh. rewrite dom_insert_L.
        apply elem_of_union. by right.
    + intros x Hx. rewrite Hother by set_solver.
      apply lookup_insert_ne. set_solver.
    + intros s' [->|Hs']%elem_of_cons; [|by apply Hall].
      exists l. split.
      * rewrite Hother by done. apply lookup_insert_eq.
      * eapply lookup_weaken; [|done]. apply lookup_insert_eq.
Qed.

Lemma preorder_postorder (t : ltree) : postorder t ≡ₚ preorder t.
Proof.
  induction t as [a nm ln l cs IH] using ltree_ind'.
  cbn [preorder postorder children root].
  rewrite <- Permutation_cons_append. apply Permutation_cons; [done|].
  induction IH as [|c cs Hc _ IHcs]; [done|]. cbn [map concat].
  by rewrite Hc, IHcs.
Qed.

(** *** The post-order loop on any store *)

Lemma postorder_loop_mono (dm : gmap addr addr) (fuel : nat) :
  forall (fuel' : nat) (st : store) (stack : list addr),
    fuel <= fuel' -> postorder_loop fuel st stack dm <> OutOfFuel ->
    postorder_loop fuel' st stack dm = postorder_loop fuel st stack dm.
Proof.
  induction fuel as [|fuel IH]; intros fuel' st stack Hle; [done|].
  destruct fuel' as [|fuel']; [lia|]. cbn [postorder_loop].
  destruct (last stack) as [node|]; [|done].
  destruct (dm !! node) as [d|]; [|done].
  destruct (st !! d) as [[nm ln dd|[|first items]]|]; try done.
  - destruct (pop_first st (but_last stack) dm) as [st'| |]; cbn [bind];
      [|done..].
    destruct (postorder_loop fuel st' (but_last stack) dm) eqn:Hl;
      cbn [bind]; intros Hne; rewrite IH, Hl; try done; try lia;
      by rewrite Hl.
  - apply IH. lia.
Qed.

Lemma list_items_pop (st : store) (l c : addr) (items : list addr) :
  st !! l = Some (OList (c :: items)) ->
  list_items (<[l := OList items]> st) + 1 = list_items st.
Proof.
  intros Hl. unfold list_items.
  assert (forall (m : store) (j1 j2 : addr) (z1 z2 : obj) (y : nat),
            j1 <> j2 -> m !! j1 = Some z1 -> m !! j2 = Some z2 ->
            match z1 with
            | OList items => List.length items
                             + match z2 with
                               | OList items => List.length items + y
                               | ONode _ _ _ => y
                               end
            | ONode _ _ _ => match z2 with
                             | OList items => List.length items + y
                             | ONode _ _ _ => y
                             end
            end
            = match z2 with
              | OList items => List.length items
                               + match z1 with
                                 | OList items => List.length items + y
                                 | ONode _ _ _ => y
                                 end
              | ONode _ _ _ => match z1 with
                               | OList items => List.length items + y
                               | ONode _ _ _ => y
                               end
              end) as Hcomm.
  { intros m j1 j2 [|its1] [|its2] y _ _ _; lia. }
  rewrite (map_fold_delete_L _ _ l (OList (c :: items)) st); [|apply Hcomm|done].
  rewrite <- (insert_delete_eq st).
  rewrite map_fold_insert_L; [|apply Hcomm|apply lookup_delete_eq].
  cbn [List.length]. lia.
Qed.

Lemma copy_descendants_keyed (K : addr -> addr -> Prop) (nodes : list addr) :
  forall (st : store) (dm : gmap addr addr),
    (forall x, x ∈ nodes ->
       exists items, get_descendants st x = Return items
                     /\ forall y, y ∈ items -> K x y) ->
    keyed K st dm ->
    (forall x l, dm !! x = Some l -> l ∈ dom st) ->
    (forall x y l, dm !! x = Some l -> dm !! y = Some l -> x = y) ->
    exists st1 dm1,
      copy_descendants nodes st dm = Return (st1, dm1)
      /\ keyed K st1 dm1
      /\ (forall x, x ∈ nodes \/ is_Some (dm !! x) -> is_Some (dm1 !! x))
      /\ (forall x y l, dm1 !! x = Some l -> dm1 !! y = Some l -> x = y).
Proof.
  induction nodes as [|node nodes IH]; intros st dm Hnodes Hkeyed Hdom Hinj.
  - exists st, dm. split; [done|]. split; [done|]. split; [|done].
    intros x [Hx%elem_of_nil|Hx]; done.
  - cbn [copy_descendants].
    destruct (Hnodes node) as (items & Hitems & HK); [left|].
    rewrite Hitems. cbn [bind].
    pose proof (is_fresh (dom st)) as Hl.
    set (l := fresh (dom st)) in *. clearbody l.
    assert (st ⊆ <[l := OList items]> st) as Hsub.
    { apply insert_subseteq. by apply not_elem_of_dom. }
    destruct (IH (<[l := OList items]> st) (<[node := l]> dm))
      as (st1 & dm1 & Heq & Hkeyed1 & Hkeys & Hinj1).
    { intros x Hx. destruct (Hnodes x) as (its & Hits & HKx); [by right|].
      exists its. split; [by eapply get_descendants_weaken | done]. }
    { intros x lx [[<- <-]|[_ Hx]]%lookup_insert_Some.
      - exists items. split; [apply lookup_insert_eq | done].
      - destruct (Hkeyed x lx Hx) as (its & Hits & HKx).
        exists its. split; [by eapply lookup_weaken | done]. }
    { intros x l' [[<- <-]|[_ Hx]]%lookup_insert_Some; rewrite dom_insert_L.
      - set_solver.
      - apply elem_of_union. right. by eapply Hdom. }
    { intros x y l' [[<- <-]|[Hxs Hx]]%lookup_insert_Some
                    [[<- Hl']|[Hys Hy]]%lookup_insert_Some; try done.
      - destruct Hl. by eapply Hdom.
      - subst l'. destruct Hl. by eapply Hdom.
      - by eapply Hinj. }
    exists st1, dm1. split; [done|]. split; [done|]. split; [|done].
    intros x [[->|Hx]%elem_of_cons|Hx]; apply Hkeys.
    + right. rewrite lookup_insert_eq. by eexists.
    + by left.
    + right. destruct (decide (node = x)) as [->|Hne].
      * rewrite lookup_insert_eq. by eexists.
      * by rewrite lookup_insert_ne.
Qed.

(** A node is not among its own descendants where the default walk returns:
    a walk that comes back to its node with fewer frames never returns. *)
Lemma walk_default_no_loop (st : store) (x : addr) (c : nat) :
  1 <= c ->
  (forall d l, walk_default d st x = Return l ->
               exists l', walk_default (d - c) st x = Return l') ->
  forall d l, walk_default d st x <> Return l.
Proof.
  intros Hc Hloop d. induction d as [d IH] using lt_wf_ind. intros l Hd.
  destruct d as [|d]; [done|].
  destruct (Hloop _ _ Hd) as [l' Hl']. by apply (IH (S d - c)) in Hl'; [|lia].
Qed.

(** Down a stack of nodes, each a descendant of the one before, the default
    walk returns with one frame less at each step. *)
Lemma walk_default_down (st : store) (stack : list addr) :
  (forall i p c, stack !! i = Some p -> stack !! (S i) = Some c ->
                 child st p c) ->
  forall k i x y d l,
    stack !! i = Some x -> stack !! (i + k) = Some y ->
    walk_default d st x = Return l ->
    exists l', walk_default (d - k) st y = Return l'.
Proof.
  intros Hpath. induction k as [|k IH]; intros i x y d l Hx Hy Hd.
  - rewrite Nat.add_0_r in Hy. rewrite Hx in Hy. injection Hy as <-.
    rewrite Nat.sub_0_r. eauto.
  - destruct (lookup_lt_is_Some_2 stack (i + k)) as [z Hz].
    { apply lookup_lt_Some in Hy. lia. }
    destruct (IH i x z d l Hx Hz Hd) as [lz Hlz].
    replace (i + S k) with (S (i + k)) in Hy by lia.
    pose proof (Hpath _ _ _ Hz Hy) as Hchild.
    destruct (d - k) as [|m] eqn:Hm; [done|].
    destruct (walk_default_child _ _ _ _ _ Hlz Hchild) as [ly Hly].
    exists ly. by replace (d - S k) with m by lia.
Qed.

Section loop.
Variable dm : gmap addr addr.
Variable st0 : store.
Variable nodes : list addr.
Variable D : nat.
Hypothesis keys : forall x, x ∈ nodes -> is_Some (dm !! x).
Hypothesis dm_inj :
  forall x y l, dm !! x = Some l -> dm !! y = Some l -> x = y.

(** The loop returns, whatever the store holds: it ends within its fuel, it
    looks up no key that the dictionary does not have, and it pops from no
    empty list. *)
Lemma postorder_loop_runs (fuel : nat) :
  forall (st : store) (stack : list addr),
    keyed (fun x y => child st0 x y /\ y ∈ nodes) st dm ->
    (forall x, x ∈ stack -> x ∈ nodes) ->
    shallow D st0 stack ->
    linked dm st stack ->
    NoDup stack ->
    2 * list_items st + (D - List.length stack) + 2 <= fuel ->
    exists r, postorder_loop fuel st stack dm = Return r.
Proof.
  induction fuel as [|fuel IH];
    intros st stack Hkeyed Hstack Hshallow Hlinked Hnd Hfuel; [lia|].
  cbn [postorder_loop].
  destruct (last stack) as [node|] eqn:Hlast; [|eauto].
  apply last_Some in Hlast as [stack' ->]. rewrite but_last_snoc.
  destruct (keys node) as [d Hd]; [apply Hstack, elem_of_app; right; left|].
  rewrite Hd. destruct (Hkeyed node d Hd) as (items & Hitems & HK).
  rewrite Hitems.
  assert ((stack' ++ [node]) !! List.length stack' = Some node) as Hnode_at
    by (by rewrite lookup_app_r, Nat.sub_diag by lia).
  destruct (Hshallow (List.length stack') node Hnode_at) as [lnode Hnode].
  assert (List.length stack' < D) as Hlen.
  { destruct (D - List.length stack') eqn:HD; [done | lia]. }
  rewrite length_app in Hfuel. cbn [List.length] in Hfuel.
  assert (forall x, x ∈ stack' -> x ∈ nodes) as Hstack'.
  { intros x Hx. apply Hstack, elem_of_app. by left. }
  assert (shallow D st0 stack') as Hshallow'.
  { intros i x Hi. apply Hshallow. by apply lookup_app_l_Some. }
  pose proof Hnd as Hnd0. apply NoDup_app in Hnd as (Hnd' & Hnot & _).
  destruct items as [|first items].
  - unfold pop_first. destruct (last stack') as [parent|] eqn:Hparent.
    + apply last_Some in Hparent as [stack'' ->].
      assert ((stack'' ++ [parent]) !! List.length stack'' = Some parent)
        as Hparent_at by (by rewrite lookup_app_r, Nat.sub_diag by lia).
      destruct (Hlinked (List.length stack'') parent node)
        as (l & more & Hl & Hits).
      { by apply lookup_app_l_Some. }
      { rewrite lookup_app_r; rewrite length_app; cbn [List.length]; [|lia].
        by replace (S (List.length stack'') - (List.length stack'' + 1))
          with 0 by lia. }
      rewrite Hl, Hits. cbn [bind].
      pose proof (list_items_pop st l node more Hits) as Hpop.
      destruct (IH (<[l := OList more]> st) (stack'' ++ [parent])) as [r Hr];
        [|done..| |done|lia|].
      * intros x lx Hx. destruct (decide (lx = l)) as [->|Hne].
        -- exists more. split; [apply lookup_insert_eq|]. intros y Hy.
           destruct (Hkeyed x l Hx) as (its' & Hits' & HK'').
           rewrite Hits in Hits'. injection Hits' as <-. apply HK''. by right.
        -- destruct (Hkeyed x lx Hx) as (its' & Hits' & HK'').
           exists its'. split; [by rewrite lookup_insert_ne | done].
      * intros i p c Hp Hc.
        destruct (Hlinked i p c) as (lp & more' & Hlp & Hmore');
          [by apply lookup_app_l_Some..|].
        exists lp, more'. split; [done|].
        rewrite lookup_insert_ne; [done|]. intros <-.
        assert (p = parent) as -> by (by eapply dm_inj).
        apply NoDup_app in Hnd' as (Hnd'' & Hnot'' & _).
        apply lookup_app_Some in Hp as [Hp|[Hge Hp]].
        -- apply (Hnot'' parent); [by eapply list_elem_of_lookup_2 | left].
        -- apply lookup_lt_Some in Hc. rewrite length_app in Hc.
           cbn [List.length] in Hc. lia.
      * rewrite Hr. cbn [bind]. eauto.
    + cbn [bind]. apply last_None in Hparent as ->.
      destruct fuel as [|fuel]; [cbn [List.length] in Hfuel; lia|].
      cbn [postorder_loop last bind]. eauto.
  - destruct (HK first) as [Hchild Hin]; [left|].
    destruct (D - List.length stack') as [|m] eqn:HD; [lia|].
    destruct (walk_default_child _ _ _ _ _ Hnode Hchild) as [lfirst Hfirst].
    assert (m <> 0) as Hm by (by intros ->).
    assert (linked dm st ((stack' ++ [node]) ++ [first])) as Hlinked'.
    { intros i p c Hp Hc. apply lookup_app_Some in Hc as [Hc|[Hge Hc]].
      - apply (Hlinked i p c); [|done].
        apply lookup_app_Some in Hp as [Hp|[Hge Hp]]; [done|].
        apply lookup_lt_Some in Hc. lia.
      - apply list_lookup_singleton_Some in Hc as [Hi <-].
        rewrite length_app in Hge, Hi. cbn [List.length] in Hge, Hi.
        assert (i = List.length stack') as -> by lia.
        rewrite lookup_app_l in Hp
          by (rewrite length_app; cbn [List.length]; lia).
        rewrite Hnode_at in Hp. injection Hp as <-.
        exists d, items. by split. }
    apply IH; [done| | |done| |].
    + intros x [Hx| ->%list_elem_of_singleton]%elem_of_app; [by apply Hstack|done].
    + intros i x Hi. apply lookup_app_Some in Hi as [Hi|[Hge Hi]].
      * by apply Hshallow.
      * rewrite length_app in Hge, Hi. cbn [List.length] in Hge, Hi.
        apply list_lookup_singleton_Some in Hi as [Hi <-].
        replace (D - i) with m by lia. eauto.
    + apply NoDup_app. split; [done|].
      split; [|apply NoDup_singleton].
      intros x Hx ->%list_elem_of_singleton.
      apply list_elem_of_lookup in Hx as [i Hi].
      pose proof (lookup_lt_Some _ _ _ Hi) as Hlt.
      rewrite length_app in Hlt. cbn [List.length] in Hlt.
      assert (((stack' ++ [node]) ++ [first])
                !! (i + (S (List.length stack') - i)) = Some first) as Htop.
      { replace (i + (S (List.length stack') - i))
          with (List.length (stack' ++ [node]))
          by (rewrite length_app; cbn [List.length]; lia).
        by rewrite lookup_app_r, Nat.sub_diag by lia. }
      apply (walk_default_no_loop st0 first (S (List.length stack') - i))
        with (d := m) (l := lfirst); [lia| |done].
      intros d' l' Hd'.
      eapply (walk_default_down st0 ((stack' ++ [node]) ++ [first]));
        [|by apply lookup_app_l_Some|exact Htop|exact Hd'].
      intros j p c Hp Hc.
      destruct (Hlinked' j p c Hp Hc) as (lp & more & Hlp & Hmore).
      destruct (Hkeyed p lp Hlp) as (its & Hits & HKp).
      rewrite Hmore in Hits. injection Hits as <-.
      apply HKp. left.
    + rewrite !length_app. cbn [List.length]. lia.
Qed.
End loop.

(** The generator [_postorder], run to its end: it returns, or the walk it
    begins with has raised. *)
Lemma _postorder_runs (frames : nat) (st : store) (self : addr) :
  (exists r, _postorder frames st self = Return r)
  \/ (exists e, _postorder frames st self = Raise e
                /\ (e = RecursionError \/ e = AttributeError)).
Proof.
  unfold _postorder. destruct frames as [|room]; [right; eauto|].
  cbn [call].
  pose proof (walk_default_answers room st self) as Hanswers.
  destruct (walk_default room st self) as [nodes|e|] eqn:Hwalk; cbn [bind];
    [| |done].
  2:{ right. exists e. split; [done|].
      apply walk_default_Raise in Hwalk as [->| ->]; auto. }
  destruct (walk_default_closed _ _ _ _ Hwalk) as [Hself Hclosed].
  destruct (copy_descendants_keyed
              (fun x y => child st x y /\ y ∈ nodes) nodes st ∅)
    as (st1 & dm1 & -> & Hkeyed & Hkeys & Hinj).
  { intros x Hx. destruct (Hclosed x Hx) as (items & Hitems & Hsub).
    exists items. split; [done|]. intros y Hy. split; [|by apply Hsub].
    by exists items. }
  { by intros x lx. }
  { by intros x l. }
  { by intros x y l. }
  cbn [bind fst snd]. left.
  apply (postorder_loop_runs dm1 st nodes room).
  - intros x Hx. apply Hkeys. by left.
  - exact Hinj.
  - exact Hkeyed.
  - by intros x ->%list_elem_of_singleton.
  - intros i x Hi. apply list_lookup_singleton_Some in Hi as [-> <-].
    rewrite Nat.sub_0_r. eauto.
  - intros i p c Hp Hc. apply list_lookup_singleton_Some in Hp as [-> _].
    done.
  - apply NoDup_singleton.
  - cbn [List.length]. lia.
Qed.

Lemma walk_runs (frames : nat) (st : store) (self : addr)
    (mode : option str) :
  (exists r, walk frames st self mode = Return r)
  \/ (exists e, walk frames st self mode = Raise e
                /\ (e = RecursionError \/ e = AttributeError)).
Proof.
  unfold walk. destruct (bool_decide _).
  - destruct frames as [|[|room]]; [right; eauto..|]. cbn [call].
    apply _postorder_runs.
  - pose proof (walk_default_answers frames st self) as Hanswers.
    destruct (walk_default frames st self) as [l|e|] eqn:Hwalk; cbn [bind];
      [left; eauto| |done].
    right. exists e. split; [done|].
    apply walk_default_Raise in Hwalk as [->| ->]; auto.
Qed.

(** The fuel of the loop is never used up: [OutOfFuel] is no outcome of a
    walk. *)
Lemma walk_ends (frames : nat) (st : store) (self : addr)
    (mode : option str) :
  walk frames st self mode <> OutOfFuel.
Proof. by destruct (walk_runs frames st self mode) as [[r ->]|(e & -> & _)]. Qed.

(** *** Both walks on a tree *)

Lemma walk_default_store (frames : nat) (st : store) (t : ltree) :
  is_tree st t -> depth t <= frames ->
  walk frames st (root t) None = Return (preorder t, st).
Proof.
  intros Htree Hroom. unfold walk. rewrite bool_decide_eq_false_2 by done.
  by rewrite walk_default_tree, decide_True.
Qed.

Lemma walk_postorder_store (frames : nat) (st : store) (t : ltree) :
  is_tree st t -> NoDup (preorder t) -> depth t + 3 <= frames ->
  exists st', walk frames st (root t) (Some (text "postorder"))
              = Return (postorder t, st')
              /\ st ⊆ st'.
Proof.
  intros Htree Hnd Hroom.
  destruct frames as [|[|[|room]]]; [lia..|].
  unfold walk. rewrite bool_decide_eq_true_2 by done. cbn [call].
  pose proof (_postorder_runs (S room) st (root t)) as Hruns.
  unfold _postorder in *. cbn [call] in *.
  rewrite walk_default_tree, decide_True in Hruns |- * by (done || lia).
  cbn [bind] in *. rewrite preorder_subtrees in Hruns |- *.
  destruct (copy_descendants_trees (subtrees t) st ∅)
    as (st1 & dm & Hcopy & Hsub & Hdom & Hinj & Horig & _ & Hall);
    [done | by rewrite <- preorder_subtrees | done | done |].
  rewrite Hcopy in *. cbn [bind fst snd] in *.
  destruct (loop_subtree dm Hinj t st1 [] 0) as (st' & Heq & Hun & _).
  { apply Forall_forall. intros s Hs. by apply Hall. }
  { done. }
  { by intros p. }
  cbn [app] in Heq. cbn [postorder_loop last bind fst snd] in Heq.
  rewrite app_nil_r in Heq.
  set (fuel := 2 * list_items st1 + S room + 1) in *.
  set (fuel_t := 2 * List.length (preorder t) + 0) in *.
  assert (postorder_loop fuel st1 [root t] dm = Return (postorder t, st'))
    as Hloop.
  { destruct (decide (fuel_t <= fuel)) as [Hle|Hgt].
    - rewrite <- Heq. apply postorder_loop_mono; [done|]. by rewrite Heq.
    - rewrite <- Heq. symmetry. apply postorder_loop_mono; [lia|].
      by destruct Hruns as [[r ->]|(e & -> & _)]. }
  exists st'. split; [done|].
  apply map_subseteq_spec. intros i x Hi.
  rewrite Hun; [by eapply lookup_weaken|].
  intros y _ Hy. destruct (Horig y i Hy) as [Hy'|Hfresh]; [done|].
  apply Hfresh. by apply elem_of_dom.
Qed.

(** A tree in the store, walked with too little room: the default walk and
    the post-order walk fill the stack. *)
Lemma walk_store_RecursionError (frames : nat) (st : store) (t : ltree) :
  is_tree st t ->
  (frames < depth t -> walk frames st (root t) None = Raise RecursionError)
  /\ (frames < depth t + 3 ->
      walk frames st (root t) (Some (text "postorder"))
      = Raise RecursionError).
Proof.
  intros Htree. unfold walk. split; intros Hroom.
  - rewrite bool_decide_eq_false_2 by done.
    by rewrite walk_default_tree, decide_False by (done || lia).
  - rewrite bool_decide_eq_true_2 by done.
    destruct frames as [|[|[|room]]]; [done..|]. cbn [call]. unfold _postorder.
    cbn [call]. by rewrite walk_default_tree, decide_False by (done || lia).
Qed.

Lemma holds_tree_e :
  is_tree (build tree_e ∅).2 ltree_e /\ NoDup (preorder ltree_e)
  /\ build tree_e ∅ = (root ltree_e, (build tree_e ∅).2).
Proof.
  split; [|split].
  - unfold is_tree. cbn [ltree_e subtrees children map concat app].
    repeat (apply Forall_cons; split); [..|by apply Forall_nil];
      split; vm_compute; reflexivity.
  - apply (bool_decide_unpack (NoDup (preorder ltree_e))). vm_compute.
    exact I.
  - by vm_compute.
Qed.

(** [C6]: ["(a,(b,c)d)e"] parses to the root [e] with the children [a] and
    [d], [d] with the children [b] and [c]; on the objects of that tree the
    default walk yields [e, a, d, b, c] and the post-order walk yields
    [a, b, c, d, e].  The parser takes five frames here, the default walk
    three and the post-order walk six. *)
Theorem walk_orders (frames : nat) :
  6 <= frames ->
  parse_node frames (text "(a,(b,c)d)e") = Return tree_e
  /\ (let '(root, st) := build tree_e ∅ in
       r <- walk frames st root None;; Return (names st r.1))
     = Return (map Some [text "e"; text "a"; text "d"; text "b"; text "c"])
  /\ (let '(root, st) := build tree_e ∅ in
       r <- walk frames st root (Some (text "postorder"));;
       Return (names st r.1))
     = Return (map Some [text "a"; text "b"; text "c"; text "d"; text "e"]).
Proof.
  intros Hframes. destruct holds_tree_e as (Htree & Hnd & ->).
  set (st := (build tree_e ∅).2) in *.
  split; [|split].
  - apply (parse_node_Return_mono 5); [lia|]. by vm_compute.
  - rewrite walk_default_store by (done || (cbn; lia)). by vm_compute.
  - destruct (walk_postorder_store frames st ltree_e) as (st' & -> & _);
      [done..|cbn; lia|].
    by vm_compute.
Qed.

Lemma walk_orders_witness :
  parse_node 6 (text "(a,(b,c)d)e") = Return tree_e
  /\ (let '(root, st) := build tree_e ∅ in
       r <- walk 6 st root None;; Return (names st r.1))
     = Return (map Some [text "e"; text "a"; text "d"; text "b"; text "c"])
  /\ (let '(root, st) := build tree_e ∅ in
       r <- walk 6 st root (Some (text "postorder"));;
       Return (names st r.1))
     = Return (map Some [text "a"; text "b"; text "c"; text "d"; text "e"]).
Proof. apply (walk_orders 6). lia. Defined.

(** [C10], amended: on a store that holds the tree [t] with no node object
    twice, where the stack has a frame for each node on the longest path of
    [t], the default walk of the root yields the nodes of [t] with each node
    before its descendants, the root first, and leaves the store as it is;
    with three frames more the post-order walk yields a permutation of
    them, with no node twice and the root last, and afterwards every object
    of the store is as it was. *)
Theorem walk_tree (frames : nat) (st : store) (t : ltree) :
  is_tree st t -> NoDup (preorder t) ->
  (depth t <= frames ->
   walk frames st (root t) None = Return (preorder t, st))
  /\ (depth t + 3 <= frames ->
      exists st', walk frames st (root t) (Some (text "postorder"))
                  = Return (postorder t, st')
                  /\ st ⊆ st')
  /\ postorder t ≡ₚ preorder t
  /\ NoDup (postorder t)
  /\ head (preorder t) = Some (root t)
  /\ last (postorder t) = Some (root t).
Proof.
  intros Htree Hnd.
  split; [|split; [|split; [|split; [|split]]]].
  - by apply walk_default_store.
  - by apply walk_postorder_store.
  - apply preorder_postorder.
  - by rewrite preorder_postorder.
  - by destruct t.
  - destruct t as [a nm ln l cs]. cbn [postorder root]. apply last_snoc.
Qed.

Lemma walk_tree_witness :
  let st := (build tree_e ∅).2 in
  walk 6 st 10%positive None = Return ([10; 2; 8; 4; 6]%positive, st)
  /\ (exists st', walk 6 st 10%positive (Some (text "postorder"))
                  = Return ([2; 4; 6; 8; 10]%positive, st')
                  /\ st ⊆ st')
  /\ [2; 4; 6; 8; 10]%positive ≡ₚ [10; 2; 8; 4; 6]%positive
  /\ NoDup [2; 4; 6; 8; 10]%positive
  /\ head [10; 2; 8; 4; 6]%positive = Some 10%positive
  /\ last [2; 4; 6; 8; 10]%positive = Some 10%positive.
Proof.
  intros st. destruct (walk_tree 6 st ltree_e) as (Hpre & Hpost & Hrest).
  - unfold is_tree. cbn [ltree_e subtrees children map concat app].
    repeat (apply Forall_cons; split); [..|apply Forall_nil];
      split; vm_compute; reflexivity.
  - apply (bool_decide_unpack (NoDup (preorder ltree_e))). vm_compute.
    exact I.
  - split; [apply Hpre; vm_compute; lia|].
    split; [apply Hpost; vm_compute; lia | exact Hrest].
Defined.

(** *** The objects of a parsed tree form a tree in the store *)

Lemma is_tree_weaken (st st' : store) (t : ltree) :
  st ⊆ st' -> is_tree st t -> is_tree st' t.
Proof.
  intros Hsub Ht. unfold is_tree. eapply Forall_impl; [exact Ht|].
  intros s. by apply holds_weaken.
Qed.

Lemma is_tree_dom (st : store) (t : ltree) (x : addr) :
  is_tree st t -> x ∈ preorder t -> x ∈ dom st.
Proof.
  unfold is_tree. rewrite Forall_forall, preorder_subtrees.
  intros Htree (s & -> & Hs)%list_elem_of_fmap.
  destruct (Htree s Hs) as [Hn _]. by apply elem_of_dom.
Qed.

Lemma build_all_trees (ds : list Node) :
  Forall (fun n => forall st, exists t,
            root t = (build n st).1 /\ forget t = n
            /\ is_tree (build n st).2 t /\ NoDup (preorder t)
            /\ st ⊆ (build n st).2
            /\ forall x, x ∈ preorder t -> x ∉ dom st) ds ->
  forall st, exists ts,
    (build_all build ds st).1 = map root ts /\ map forget ts = ds
    /\ Forall (is_tree (build_all build ds st).2) ts
    /\ NoDup (concat (map preorder ts))
    /\ st ⊆ (build_all build ds st).2
    /\ forall x, x ∈ concat (map preorder ts) -> x ∉ dom st.
Proof.
  induction 1 as [|c cs Hc _ IH]; intros st.
  - exists []. cbn [build_all map concat fst snd].
    split; [done|]. split; [done|]. split; [constructor|].
    split; [constructor|]. split; [done|].
    intros x Hx. by apply elem_of_nil in Hx.
  - cbn [build_all].
    destruct (Hc st) as (t & Hroot & Hforget & Htree & Hnd & Hsub & Hnew).
    destruct (build c st) as [a st1]. cbn [fst snd] in *.
    destruct (IH st1) as (ts & Hitems & Hforgets & Htrees & Hnds & Hsubs & Hnews).
    destruct (build_all build cs st1) as [items st2]. cbn [fst snd] in *.
    exists (t :: ts). cbn [map concat].
    split; [by rewrite Hroot, Hitems|]. split; [by rewrite Hforget, Hforgets|].
    split; [|split; [|split]].
    + constructor; [by eapply is_tree_weaken | done].
    + apply NoDup_app. split; [done|]. split; [|done].
      intros x Hx Hx'. apply (Hnews x Hx'). by eapply is_tree_dom.
    + by etrans.
    + intros x [Hx|Hx]%elem_of_app; [by apply Hnew|].
      intros Hin. apply (Hnews x Hx).
      by apply (subseteq_dom _ _ Hsub).
Qed.

(** The objects built for a tree value form that tree in the store, with no
    node object twice, and leave the objects that were there as they are. *)
Lemma build_is_tree (n : Node) (st : store) :
  exists t,
    root t = (build n st).1 /\ forget t = n
    /\ is_tree (build n st).2 t /\ NoDup (preorder t)
    /\ st ⊆ (build n st).2
    /\ forall x, x ∈ preorder t -> x ∉ dom st.
Proof.
  revert st. induction n as [nm ln ds IH] using Node_ind'. intros st.
  cbn [build descendants name length].
  destruct (build_all_trees ds IH st)
    as (ts & Hitems & Hforgets & Htrees & Hnds & Hsubs & Hnews).
  destruct (build_all build ds st) as [items st2]. cbn [fst snd] in *.
  pose proof (is_fresh (dom st2)) as Hl.
  set (l := fresh (dom st2)) in *. clearbody l.
  set (st3 := <[l := OList items]> st2).
  pose proof (is_fresh (dom st3)) as Ha.
  set (a := fresh (dom st3)) in *. clearbody a.
  assert (st2 ⊆ st3) as Hsub3.
  { apply insert_subseteq. by apply not_elem_of_dom. }
  assert (st3 ⊆ <[a := ONode nm ln l]> st3) as Hsub4.
  { apply insert_subseteq. by apply not_elem_of_dom. }
  assert (st3 !! l = Some (OList items)) as Hl3 by apply lookup_insert_eq.
  exists (LNode a nm ln l ts). cbn [fst snd root forget preorder children].
  split; [done|]. split; [by rewrite Hforgets|].
  split; [|split; [|split]].
  - apply Forall_subtrees. split.
    + split; [apply lookup_insert_eq|]. cbn [list_addr children].
      rewrite <- Hitems. by eapply lookup_weaken.
    + cbn [children]. eapply Forall_impl; [exact Htrees|]. intros t Ht.
      eapply is_tree_weaken; [|exact Ht]. by etrans.
  - apply NoDup_cons. split; [|done].
    intros Hin%list_elem_of_In. apply in_concat in Hin as (ps & Hps & Hin).
    apply in_map_iff in Hps as (t & <- & Ht).
    rewrite List.Forall_forall in Htrees. apply Ha.
    apply (subseteq_dom _ _ Hsub3). apply (is_tree_dom _ t); [by apply Htrees|].
    by apply list_elem_of_In.
  - by etrans; [|etrans].
  - intros x [->|Hx]%elem_of_cons; [|by apply Hnews].
    intros Hin. apply Ha. apply (subseteq_dom _ _ Hsub3).
    by apply (subseteq_dom _ _ Hsubs).
Qed.


Lemma depth_forget (t : ltree) : depth t = height (forget t).
Proof.
  induction t as [a nm ln l cs IH] using ltree_ind'.
  cbn [depth forget height children descendants]. f_equal. f_equal.
  rewrite map_map. apply map_ext_in. intros c Hc.
  rewrite Forall_forall in IH. by apply IH, list_elem_of_In.
Qed.

Lemma height_chain (k : nat) : height (chain k) = S k.
Proof.
  induction k as [|k IH]; [done|]. cbn [chain height descendants map].
  rewrite IH. simpl. lia.
Qed.

(** Two trees walked from the root.  The tree [(a,(b,c)d)e] where three
    frames are left: the default walk yields its five nodes, the post-order
    walk raises [RecursionError]; where two frames are left, the default
    walk raises it too.  A chain of 1000 nodes, each the only descendant of
    the one before, where 1000 frames are left: the default walk returns,
    the post-order walk raises [RecursionError]. *)
Lemma walk_postorder_RecursionError :
  (let st := (build tree_e ∅).2 in
   is_tree st ltree_e /\ NoDup (preorder ltree_e)
   /\ walk 3 st 10%positive None = Return ([10; 2; 8; 4; 6]%positive, st)
   /\ walk 3 st 10%positive (Some (text "postorder"))
      = Raise RecursionError
   /\ walk 2 st 10%positive None = Raise RecursionError)
  /\ (let '(a, st) := build (chain 999) ∅ in
      (exists l, walk 1000 st a None = Return (l, st))
      /\ walk 1000 st a (Some (text "postorder")) = Raise RecursionError).
Proof.
  split.
  - intros st. destruct holds_tree_e as (Htree & Hnd & _).
    split; [done|]. split; [done|]. split; [|split]; by vm_compute.
  - destruct (build_is_tree (chain 999) ∅)
      as (t & Hroot & Hforget & Htree & Hnd & _).
    destruct (build (chain 999) ∅) as [a st]. cbn [fst snd] in *. subst a.
    assert (depth t = 1000) as Hdepth
      by (by rewrite depth_forget, Hforget, height_chain).
    split.
    + exists (preorder t). apply walk_default_store; [done|lia].
    + apply walk_store_RecursionError; [done|lia].
Qed.
(** * Further properties of the code *)

(** ** What the parser answers *)

(** [parse_node] returns a node, or raises one of its two [ValueError]s
    (the one for a reserved character, or the one for unmatched braces with
    at most 100 characters of the text), or finds the stack full; and the
    stack is full only where there are no more frames than the text has
    characters. *)
Theorem parse_node_outcomes (frames : nat) (s : str) :
  (exists n, parse_node frames s = Return n)
  \/ (exists c, In c RESERVED_PUNCTUATION
                /\ parse_node frames s = Raise (InvalidLabelError c))
  \/ (exists x, List.length x <= 100
                /\ parse_node frames s = Raise (SyntaxError x))
  \/ (parse_node frames s = Raise RecursionError
      /\ frames <= List.length s).
Proof.
  pose proof (parse_node_answers frames s) as Hanswers.
  destruct (parse_node frames s) as [n|e|] eqn:Hp; [left; by exists n| |done].
  right.
  destruct (parse_node_Raise _ _ _ Hp) as [(c & Hc & ->)|[(x & Hx & ->)| ->]].
  - left. by exists c.
  - right. left. by exists x.
  - right. right. split; [done|].
    destruct (decide (frames <= List.length s)) as [|Hgt]; [done|].
    destruct (parse_node_room frames s); [lia | done].
Qed.

(** More room does not change what [parse_node] answers, unless the answer
    was that the stack is full. *)
Theorem parse_node_more_room (frames frames' : nat) (s : str) :
  frames <= frames' -> parse_node frames s <> Raise RecursionError ->
  parse_node frames' s = parse_node frames s.
Proof. apply parse_node_mono. Qed.

Lemma parse_node_more_room_witness :
  parse_node 1000 (text "(a,(b:1,c))d") = parse_node 5 (text "(a,(b:1,c))d").
Proof. apply parse_node_more_room; [lia | by vm_compute]. Defined.

Lemma or_None_not_empty (s : str) : or_None s <> Some [].
Proof. by destruct s. Qed.

Lemma _parse_name_and_length_not_empty (s : str) :
  (_parse_name_and_length s).1 <> Some []
  /\ (_parse_name_and_length s).2 <> Some [].
Proof.
  unfold _parse_name_and_length. destruct (contains (ord ":") s).
  - destruct (splitn (ord ":") s 1) as [|a [|b [|]]]; simpl;
      split; try done; apply or_None_not_empty.
  - simpl. split; [apply or_None_not_empty | done].
Qed.

Lemma parse_node_nodes (frames : nat) (s : str) (n : Node) :
  parse_node frames s = Return n ->
  Forall (fun m => clean_label (name m) (length m)
                   /\ name m <> Some [] /\ length m <> Some []) (nodes n).
Proof.
  revert s n. induction frames as [frames IH] using lt_wf_ind. intros s n.
  destruct frames as [|room].
  { rewrite parse_node_0. destruct (_ =? 1)%nat; [done|]. by destruct (negb _). }
  rewrite parse_node_S.
  set (parts := split (ord ")") (strip s)).
  assert (forall lbl ds,
            Forall (fun d => exists t, parse_below room t = Return d) ds ->
            (let '(name, length) := _parse_name_and_length lbl in
             Node_init name length (Some ds)) = Return n ->
            Forall (fun m => clean_label (name m) (length m)
                             /\ name m <> Some [] /\ length m <> Some [])
              (nodes n)) as Hnode.
  { intros lbl ds Hds.
    pose proof (_parse_name_and_length_not_empty lbl) as [Hn Hl].
    destruct (_parse_name_and_length lbl) as [nm ln].
    intros [Hclean ->]%Node_init_Return. apply Forall_nodes. split; [done|].
    simpl. eapply Forall_impl; [exact Hds|]. intros d (t & Ht).
    destruct room as [|room']; [done|]. rewrite parse_below_S in Ht.
    eapply IH; [|exact Ht]. lia. }
  destruct (List.length parts =? 1)%nat; simpl.
  { apply Hnode. constructor. }
  destruct (startswith _ _); simpl; [|done].
  destruct (_parse_siblings _ _) as [ds| |] eqn:Hsib; simpl; [|done..].
  apply Hnode. by eapply siblings_loop_Return.
Qed.

(** Every node of a tree that [parse_node] returns passed the validation of
    the constructor, and has no empty text as name or length: an empty name
    or length is [None]. *)
Theorem parse_node_well_formed (frames : nat) (s : str) (n : Node) :
  parse_node frames s = Return n ->
  constructed n
  /\ Forall (fun m => name m <> Some [] /\ length m <> Some []) (nodes n).
Proof.
  intros Hp%parse_node_nodes. split.
  - eapply Forall_impl; [exact Hp|]. by intros m [? _].
  - eapply Forall_impl; [exact Hp|]. by intros m [_ ?].
Qed.

Lemma parse_node_well_formed_witness :
  let n := mkNode (Some (text "c")) None
             [leaf "a"; mkNode None (Some (text "1")) []] in
  constructed n
  /\ Forall (fun m => name m <> Some [] /\ length m <> Some []) (nodes n).
Proof.
  intros n. apply (parse_node_well_formed 1000 (text " (a , :1)c")).
  by vm_compute.
Defined.

(** ** White space around the text *)




(** ** Labels *)

Lemma splitn_once (sep : char) (s : str) :
  contains sep s = true ->
  exists a b, s = a ++ sep :: b /\ contains sep a = false
              /\ splitn sep s 1 = [a; b].
Proof.
  intros (a & b & -> & Ha)%contains_split. exists a, b.
  by rewrite splitn_contains.
Qed.

(** [_parse_name_and_length] cuts the label at its first [":"]: the name is
    what comes before and holds no [":"], the length is what comes after;
    an empty part is [None], never the empty text; without a [":"] the whole
    label is the name and there is no length. *)
Theorem _parse_name_and_length_parts (s : str) :
  let name := (_parse_name_and_length s).1 in
  let length := (_parse_name_and_length s).2 in
  name <> Some [] /\ length <> Some []
  /\ contains (ord ":") (default [] name) = false
  /\ (if contains (ord ":") s
      then s = default [] name ++ text ":" ++ default [] length
      else s = default [] name /\ length = None).
Proof.
  intros nm ln.
  pose proof (_parse_name_and_length_not_empty s) as [Hn Hl].
  split; [done|]. split; [done|]. subst nm ln.
  unfold _parse_name_and_length.
  destruct (contains (ord ":") s) eqn:Hc.
  - destruct (splitn_once _ _ Hc) as (a & b & -> & Ha & ->). simpl.
    assert (forall x, default [] (or_None x) = x) as Hdef by (by intros []).
    by rewrite !Hdef.
  - simpl. assert (default [] (or_None s) = s) as -> by (by destruct s). done.
Qed.

(** ** Leaves *)

(** A text without any reserved character parses to a leaf, named by the
    trimmed text; an empty or blank text gives the leaf without a name.
    The calls that build the node take one frame. *)
Theorem parse_node_leaf (frames : nat) (s : str) :
  (forall c, In c RESERVED_PUNCTUATION -> contains c s = false) ->
  1 <= frames ->
  parse_node frames s = Return (mkNode (or_None (strip s)) None []).
Proof.
  intros Hs Hframes. destruct frames as [|room]; [lia|].
  assert (forall c, In c RESERVED_PUNCTUATION -> contains c (strip s) = false)
    as Hstrip by (intros c Hc; by apply contains_strip, Hs).
  rewrite parse_node_S.
  rewrite split_no_sep by (apply Hstrip; do 4 right; by left).
  cbn [List.length Nat.eqb bind]. unfold _parse_name_and_length.
  rewrite Hstrip by by left.
  apply Node_init_clean. intros c Hc. split; [|by intros (? & ? & _)].
  intros (x & Hx & Hin). specialize (Hstrip c Hc).
  apply contains_false in Hstrip. apply Hstrip.
  destruct (strip s); [done|]. by injection Hx as <-.
Qed.

Lemma parse_node_leaf_witness :
  parse_node 1 (text " Homo sapiens ")
  = Return (mkNode (or_None (strip (text " Homo sapiens "))) None []).
Proof.
  apply parse_node_leaf; [|lia].
  intros c Hc. by repeat destruct Hc as [<-|Hc].
Defined.

(** A text without [")"] whose part after the first [":"] holds another
    [":"] is refused by the constructor, with the error for [":"]: a label
    has at most one [":"]. *)
Theorem parse_node_second_colon (frames : nat) (s a b : str) :
  contains (ord ")") (strip s) = false ->
  strip s = a ++ text ":" ++ b ->
  contains (ord ":") a = false ->
  contains (ord ":") b = true ->
  1 <= frames ->
  parse_node frames s = Raise (InvalidLabelError (ord ":")).
Proof.
  intros Hclose Hs Ha Hb Hframes. destruct frames as [|room]; [lia|].
  rewrite parse_node_S.
  rewrite split_no_sep by done. cbn [List.length Nat.eqb bind].
  unfold _parse_name_and_length. rewrite Hs.
  change (text ":" ++ b) with (ord ":" :: b).
  rewrite contains_app, contains_cons, N.eqb_refl, orb_true_r.
  rewrite splitn_contains by done.
  unfold Node_init, RESERVED_PUNCTUATION. rewrite text_cons.
  cbn [check_reserved].
  assert (and_contains (or_None b) (ord ":") = true) as ->; [|by rewrite orb_true_r].
  destruct b; [done|]. simpl. exact Hb.
Qed.

Lemma parse_node_second_colon_witness :
  parse_node 1 (text "a:1:2") = Raise (InvalidLabelError (ord ":")).
Proof.
  by apply (parse_node_second_colon 1 (text "a:1:2") (text "a") (text "1:2")).
Defined.

(** ** What a serialisation looks like *)

Lemma contains_join (c : char) (sep : str) (parts : list str) :
  contains c sep = false ->
  Forall (fun p => contains c p = false) parts ->
  contains c (join sep parts) = false.
Proof.
  intros Hsep. induction 1 as [|p parts Hp _ IH]; [done|].
  destruct parts as [|q parts]; [done|].
  rewrite join_cons by done. by rewrite !contains_app, Hp, Hsep, IH.
Qed.

Lemma contains_newick_semicolon (n : Node) :
  constructed n -> contains (ord ";") (newick n) = false.
Proof.
  induction n as [nm ln ds IH] using Node_ind'.
  intros [Hclean Hds]%Forall_nodes. simpl in Hclean, Hds.
  assert (contains (ord ";") (join (text ",") (map newick ds)) = false)
    as Hjoin.
  { apply contains_join; [done|]. apply Forall_fmap.
    rewrite Forall_forall in IH, Hds |- *. intros d Hd.
    apply IH; [done | by apply Hds]. }
  rewrite newick_unfold. cbn [descendants].
  assert (contains (ord ";") (label (mkNode nm ln ds)) = false) as Hlabel.
  { apply label_plain; [done| |done]. right. by left. }
  destruct (truthy _); rewrite !contains_app, ?Hjoin, Hlabel; done.
Qed.

Lemma matched_from_plain (t rest : str) (k : nat) :
  contains (ord "(") t = false -> contains (ord ")") t = false ->
  matched_from k (t ++ rest) = matched_from k rest.
Proof.
  induction t as [|c t IH]; [done|]. rewrite !contains_cons.
  intros [Hc1 H1]%orb_false_iff [Hc2 H2]%orb_false_iff. simpl.
  rewrite (N.eqb_sym c), Hc1, (N.eqb_sym c), Hc2. by apply IH.
Qed.

Lemma matched_from_join (parts : list str) :
  Forall (fun p => forall rest k,
            matched_from k (p ++ rest) = matched_from k rest) parts ->
  forall rest k,
    matched_from k (join (text ",") parts ++ rest) = matched_from k rest.
Proof.
  induction 1 as [|p parts Hp _ IH]; intros rest k; [done|].
  destruct parts as [|q parts]; [apply Hp|].
  rewrite join_cons by done. rewrite <- !app_assoc, Hp.
  rewrite (matched_from_plain (text ",")) by done. apply IH.
Qed.

Lemma matched_from_newick (n : Node) :
  constructed n ->
  forall rest k, matched_from k (newick n ++ rest) = matched_from k rest.
Proof.
  induction n as [nm ln ds IH] using Node_ind'.
  intros [Hclean Hds]%Forall_nodes rest k. simpl in Hclean, Hds.
  assert (forall rest k,
            matched_from k (label (mkNode nm ln ds) ++ rest)
            = matched_from k rest) as Hlabel.
  { intros rest' k'. apply matched_from_plain; apply label_plain; try done.
    - do 3 right. by left.
    - do 4 right. by left. }
  rewrite newick_unfold. cbn [descendants].
  destruct (truthy _).
  - change (text "(") with [ord "("]. change (text ")") with [ord ")"].
    rewrite <- !app_assoc. cbn [app matched_from].
    change (ord "(" =? ord "(")%N with true. cbv iota.
    rewrite matched_from_join.
    + cbn [app matched_from]. change (ord ")" =? ord "(")%N with false.
      change (ord ")" =? ord ")")%N with true. cbv iota. apply Hlabel.
    + apply Forall_fmap. rewrite Forall_forall in IH, Hds |- *.
      intros d Hd rest' k'. apply IH; [done | by apply Hds].
  - rewrite <- app_assoc, matched_from_join; [apply Hlabel|].
    apply Forall_fmap. rewrite Forall_forall in IH, Hds |- *.
    intros d Hd rest' k'. apply IH; [done | by apply Hds].
Qed.

(** In the serialisation of a tree built by valid constructions the
    parentheses are matched, and there is no [";"]: the terminator of
    [dumps] cannot be mistaken for a part of a tree. *)
Theorem newick_matched (n : Node) :
  constructed n ->
  matched (newick n) = true /\ contains (ord ";") (newick n) = false.
Proof.
  intros Hn. split; [|by apply contains_newick_semicolon].
  unfold matched. rewrite <- (app_nil_r (newick n)).
  by rewrite matched_from_newick.
Qed.

Lemma newick_matched_witness :
  matched (newick tree_e) = true
  /\ contains (ord ";") (newick tree_e) = false.
Proof.
  apply (newick_matched tree_e). apply constructed_check. by vm_compute.
Defined.

(** ** Documents put together *)

Lemma join_app (sep : str) (l1 l2 : list str) :
  l1 <> [] -> l2 <> [] ->
  join sep (l1 ++ l2) = join sep l1 ++ sep ++ join sep l2.
Proof.
  induction l1 as [|p l1 IH]; [done|]. intros _ Hl2.
  destruct l1 as [|q l1].
  - simpl. by destruct l2.
  - change ((p :: q :: l1) ++ l2) with (p :: ((q :: l1) ++ l2)).
    rewrite (join_cons sep p ((q :: l1) ++ l2)) by done.
    rewrite IH by done.
    rewrite (join_cons sep p (q :: l1)) by done. by rewrite <- !app_assoc.
Qed.

(** The document of two lists of trees, neither empty, is the document of
    the first, a newline, and the document of the second. *)
Theorem dumps_app (ts1 ts2 : list Node) :
  ts1 <> [] -> ts2 <> [] ->
  dumps (inr (ts1 ++ ts2)) = dumps (inr ts1) ++ NL ++ dumps (inr ts2).
Proof.
  intros H1 H2. unfold dumps. rewrite map_app, join_app.
  - unfold NL. by rewrite <- !app_assoc.
  - by destruct ts1.
  - by destruct ts2.
Qed.

Lemma dumps_app_witness :
  dumps (inr ([leaf "a"] ++ [leaf "b"; leaf "c"]))
  = dumps (inr [leaf "a"]) ++ NL ++ dumps (inr [leaf "b"; leaf "c"]).
Proof. by apply dumps_app. Defined.

Lemma loads_segments_app (frames : nat) (l1 l2 : list str) :
  loads_segments frames (l1 ++ l2)
  = (a <- loads_segments frames l1;;
     b <- loads_segments frames l2;; Return (a ++ b)).
Proof.
  induction l1 as [|ss l1 IH]; cbn [app loads_segments].
  - cbn [bind]. by destruct (loads_segments frames l2).
  - destruct (truthy (strip ss)); [|done].
    destruct (call frames _); cbn [bind]; [|done..].
    rewrite IH. destruct (loads_segments frames l1); cbn [bind]; [|done..].
    by destruct (loads_segments frames l2).
Qed.

Lemma loads_app_eq (frames : nat) (s1 s2 : str) :
  loads frames (s1 ++ text ";" ++ s2)
  = (a <- loads frames s1;; b <- loads frames s2;; Return (a ++ b)).
Proof.
  unfold loads. change (text ";" ++ s2) with (ord ";" :: s2).
  by rewrite split_app, loads_segments_app.
Qed.

(** Loading two documents put together with a [";"] between them loads the
    first, then the second: the trees of both in order, or the first
    failure. *)
Theorem loads_app (frames : nat) (s1 s2 : str) :
  loads frames (s1 ++ text ";" ++ s2)
  = (a <- loads frames s1;; b <- loads frames s2;; Return (a ++ b)).
Proof. apply loads_app_eq. Qed.

(** ** Documents written and read back *)

Lemma loads_blank_newick (frames : nat) (w : str) (t : Node) :
  blank w = true -> constructed t -> trimmed_texts t = true ->
  parse_room t < frames ->
  loads frames (w ++ newick t)
  = Return (if decide (newick t <> []) then [reparse t] else []).
Proof.
  intros Hw Hcon Htrim Hroom. unfold loads.
  rewrite split_no_sep.
  2:{ rewrite contains_app, (contains_blank _ w), contains_newick_semicolon;
        done. }
  cbn [loads_segments]. rewrite strip_blank by done.
  rewrite strip_trimmed.
  2:{ apply trimmed_texts_Forall in Htrim.
      by apply Forall_nodes in Htrim as [? _]. }
  destruct (newick t) as [|c r] eqn:Hnew; [done|]. cbn [truthy].
  rewrite <- Hnew. destruct frames as [|room]; [lia|]. cbn [call].
  rewrite parse_newick_room, decide_True by (done || lia). cbn [bind].
  by rewrite Hnew.
Qed.

Lemma loads_blank_dumps (frames : nat) (ts : list Node) :
  Forall (fun t => constructed t /\ trimmed_texts t = true
                   /\ parse_room t < frames) ts ->
  forall w, blank w = true ->
    loads frames (w ++ dumps (inr ts))
    = Return (map reparse (filter (fun t => newick t <> []) ts)).
Proof.
  induction 1 as [|t ts (Hcon & Htrim & Hroom) _ IH]; intros w Hw.
  - change (dumps (inr [])) with (text ";" ++ []).
    rewrite loads_app_eq. unfold loads at 1.
    rewrite split_no_sep by by apply contains_blank.
    cbn [loads_segments]. rewrite <- (app_nil_r w), strip_blank by done.
    done.
  - assert (loads frames (w ++ newick t)
            = Return (map reparse (filter (fun t => newick t <> []) [t])))
      as Hone.
    { rewrite loads_blank_newick by done.
      rewrite filter_cons, filter_nil. by destruct (decide _). }
    destruct ts as [|t' ts].
    + change (dumps (inr [t])) with (newick t ++ text ";" ++ []).
      rewrite app_assoc, loads_app_eq, Hone. cbn [bind].
      change (loads frames []) with (Return (@nil Node)). cbn [bind].
      by rewrite app_nil_r.
    + rewrite dumps_cons. rewrite app_assoc, loads_app_eq, Hone. cbn [bind].
      rewrite (IH NL) by done. cbn [bind].
      rewrite (filter_cons _ t (t' :: ts)).
      rewrite filter_cons, filter_nil.
      by destruct (decide (newick t <> [])).
Qed.

(** Written by [dumps] and read back by [loads], a list of trees (built by
    valid constructions, no serialisation of a subtree with white space at
    its ends, none nested deeper than the stack has room for) comes back
    with the same serialisations, in order, except that the trees that
    serialise to the empty text are not there any more. *)
Theorem loads_dumps (frames : nat) (ts : list Node) :
  Forall (fun t => constructed t /\ trimmed_texts t = true
                   /\ parse_room t < frames) ts ->
  exists ts', loads frames (dumps (inr ts)) = Return ts'
    /\ map newick ts' = filter (fun x => x <> []) (map newick ts).
Proof.
  intros Hts. exists (map reparse (filter (fun t => newick t <> []) ts)).
  split; [by apply (loads_blank_dumps frames ts Hts [])|].
  clear Hts. induction ts as [|t ts IH]; [done|].
  cbn [map]. rewrite !filter_cons.
  destruct (decide (newick t <> [])) as [Hne|He]; cbn [map].
  - by rewrite decide_True, newick_reparse, IH by done.
  - by rewrite decide_False, IH by done.
Qed.

Lemma loads_dumps_witness :
  exists ts', loads 6 (dumps (inr [tree_e; mkNode None None []; leaf "x y"]))
              = Return ts'
    /\ map newick ts'
       = filter (fun x => x <> [])
           (map newick [tree_e; mkNode None None []; leaf "x y"]).
Proof.
  apply loads_dumps.
  repeat (apply Forall_cons; split;
          [split; [apply constructed_check; by vm_compute
                  |split; [by vm_compute | vm_compute; lia]]|]).
  by apply Forall_nil.
Defined.

(** ** Siblings without parentheses *)

Lemma siblings_loop_flat (room : nat) (s cur : str) :
  contains (ord "(") s = false -> contains (ord ")") s = false ->
  siblings_loop (parse_below room) (s ++ text ",") 0 cur
  = parse_all room (match split (ord ",") s with
                    | p :: ps => (cur ++ p) :: ps
                    | [] => []
                    end).
Proof.
  revert cur. induction s as [|c s IH]; intros cur.
  - intros _ _. cbn [app split]. change (text ",") with [ord ","].
    rewrite siblings_loop_outer_comma. cbn [siblings_loop parse_all].
    by rewrite app_nil_r.
  - rewrite !contains_cons.
    intros [Hc1 H1]%orb_false_iff [Hc2 H2]%orb_false_iff.
    cbn [app split]. destruct (c =? ord ",")%N eqn:Hc.
    + apply N.eqb_eq in Hc as ->. rewrite siblings_loop_outer_comma.
      rewrite IH by done. cbn [parse_all]. rewrite app_nil_r.
      pose proof (split_nonempty (ord ",") s).
      by destruct (split (ord ",") s).
    + cbn [siblings_loop]. rewrite Hc. cbn [andb].
      rewrite (N.eqb_sym c), Hc1, (N.eqb_sym c), Hc2.
      rewrite IH by done.
      pose proof (split_nonempty (ord ",") s).
      destruct (split (ord ",") s) as [|p ps]; [done|]. cbn [cons_first].
      by rewrite <- app_assoc.
Qed.

Lemma _parse_siblings_flat_eq (room : nat) (s : str) :
  contains (ord "(") s = false -> contains (ord ")") s = false ->
  _parse_siblings (parse_below room) s = parse_all room (split (ord ",") s).
Proof.
  intros Ho Hc. unfold _parse_siblings. rewrite siblings_loop_flat by done.
  pose proof (split_nonempty (ord ",") s). by destruct (split (ord ",") s).
Qed.

(** A list in parentheses, with no parentheses inside: the node has no name
    and no length, and its descendants are the parts between the commas,
    each parsed by a call of [parse_node] from the generator; the first
    part that fails is the failure of the whole. *)
Theorem parse_node_flat (room : nat) (s : str) :
  contains (ord "(") s = false -> contains (ord ")") s = false ->
  parse_node (S room) (text "(" ++ s ++ text ")")
  = (descendants <- parse_all room (split (ord ",") s);;
     Return (mkNode None None descendants)).
Proof.
  intros Ho Hc. rewrite parse_node_S.
  change (text "(") with [ord "("]. change (text ")") with [ord ")"].
  rewrite strip_trimmed.
  2:{ unfold trimmed. by rewrite (app_assoc _ s), last_snoc. }
  replace ([ord "("] ++ s ++ [ord ")"])
    with ((ord "(" :: s) ++ ord ")" :: []) by done.
  rewrite split_app. change (split (ord ")") []) with [@nil char].
  rewrite (split_no_sep _ (ord "(" :: s))
    by (by rewrite contains_cons, Hc).
  cbn [app List.length Nat.eqb head default from_option id].
  rewrite startswith_cons.
  cbn [negb]. change ([ord "(" :: s; []]) with ([ord "(" :: s] ++ [[]]).
  rewrite but_last_snoc, last_part_snoc. cbn [join drop].
  rewrite drop_0, _parse_siblings_flat_eq by done.
  destruct (parse_all room (split (ord ",") s)) as [ds| |]; [|done..].
  cbn [bind]. change (_parse_name_and_length []) with (@None str, @None str).
  by destruct ds.
Qed.

Lemma parse_node_flat_witness :
  parse_node 3 (text "(" ++ text "a,b:2, c" ++ text ")")
  = (descendants <- parse_all 2 (split (ord ",") (text "a,b:2, c"));;
     Return (mkNode None None descendants)).
Proof. by apply parse_node_flat. Defined.

(** ** Texts without a closing parenthesis *)

(** A text without [")"] that [parse_node] accepts gives a leaf; the leaf
    serialises to the trimmed text, less a [":"] at its end when nothing
    follows the first [":"]. *)
Theorem parse_node_no_close (frames : nat) (s : str) (n : Node) :
  contains (ord ")") (strip s) = false ->
  parse_node frames s = Return n ->
  is_leaf n = true
  /\ (newick n = strip s \/ newick n ++ text ":" = strip s).
Proof.
  intros Hclose. destruct frames as [|room].
  { rewrite parse_node_0. destruct (_ =? 1)%nat; [done|]. by destruct (negb _). }
  rewrite parse_node_S.
  rewrite split_no_sep by done. cbn [List.length Nat.eqb bind].
  unfold _parse_name_and_length.
  destruct (contains (ord ":") (strip s)) eqn:Hcolon.
  - destruct (splitn_once _ _ Hcolon) as (a & b & Hs & Ha & ->).
    intros [_ ->]%Node_init_Return. split; [done|].
    rewrite newick_unfold. cbn [descendants map join truthy app].
    rewrite Hs. unfold label. cbn [name length].
    assert (default [] (or_None a) = a) as Hdef by (by destruct a).
    change (match or_None a with Some s0 => s0 | None => [] end)
      with (default [] (or_None a)). rewrite Hdef.
    destruct b as [|c b]; [by right | by left].
  - intros [_ ->]%Node_init_Return. split; [done|]. left.
    rewrite newick_unfold. cbn [descendants map join truthy app].
    unfold label. cbn [name length]. by destruct (strip s).
Qed.

Lemma parse_node_no_close_witness :
  let n := mkNode (Some (text "a")) None [] in
  is_leaf n = true
  /\ (newick n = strip (text " a: ") \/ newick n ++ text ":" = strip (text " a: ")).
Proof. intros n. by apply (parse_node_no_close 1 (text " a: ") n). Defined.

(** ** What a document gives *)

Lemma loads_segments_outcomes (frames : nat) (segments : list str) :
  (exists ts, loads_segments frames segments = Return ts
              /\ Forall (fun t => exists u, parse_below frames u = Return t) ts
              /\ List.length ts <= List.length segments)
  \/ (exists u e, parse_below frames u = Raise e
                  /\ loads_segments frames segments = Raise e).
Proof.
  induction segments as [|ss segments IH]; cbn [loads_segments].
  - left. exists []. split; [done|]. split; [constructor | done].
  - assert ((exists ts, loads_segments frames segments = Return ts
               /\ Forall (fun t => exists u, parse_below frames u = Return t) ts
               /\ List.length ts <= List.length (ss :: segments))
            \/ (exists u e, parse_below frames u = Raise e
                            /\ loads_segments frames segments = Raise e))
      as IH'.
    { destruct IH as [(ts & ? & ? & ?)|?]; [left|by right].
      exists ts. cbn [List.length]. split; [done|]. split; [done | lia]. }
    destruct (truthy (strip ss)); [|exact IH'].
    pose proof (parse_below_answers frames (strip ss)) as Htotal.
    change (call frames (fun room => parse_node room (strip ss)))
      with (parse_below frames (strip ss)).
    destruct (parse_below frames (strip ss)) as [t|e|] eqn:Hp; [| |done].
    + destruct IH as [(ts & -> & Hts & Hlen)|(u & e & Hu & ->)].
      * left. exists (t :: ts). cbn [bind List.length].
        split; [done|]. split; [|lia]. constructor; [by exists (strip ss)|done].
      * right. by exists u, e.
    + right. by exists (strip ss), e.
Qed.

(** [loads] returns trees that all passed the validation of the
    constructor, at most one for each part between the [";"]s, or raises one
    of the two [ValueError]s of [parse_node], or finds the stack full. *)
Theorem loads_outcomes (frames : nat) (s : str) :
  (exists ts, loads frames s = Return ts
              /\ Forall constructed ts
              /\ List.length ts <= List.length (split (ord ";") s))
  \/ (exists c, In c RESERVED_PUNCTUATION
                /\ loads frames s = Raise (InvalidLabelError c))
  \/ (exists x, List.length x <= 100
                /\ loads frames s = Raise (SyntaxError x))
  \/ loads frames s = Raise RecursionError.
Proof.
  unfold loads.
  destruct (loads_segments_outcomes frames (split (ord ";") s))
    as [(ts & -> & Hts & Hlen)|(u & e & Hu & ->)].
  - left. exists ts. split; [done|]. split; [|done].
    eapply Forall_impl; [exact Hts|]. intros t (u & Hu).
    destruct frames as [|room]; [done|]. rewrite parse_below_S in Hu.
    apply parse_node_nodes in Hu.
    eapply Forall_impl; [exact Hu|]. by intros m [? _].
  - right. destruct frames as [|room]; [injection Hu as <-; auto|].
    rewrite parse_below_S in Hu.
    apply parse_node_Raise in Hu as [(c & Hc & ->)|[(x & Hx & ->)| ->]];
      [left; by exists c | right; left; by exists x | auto].
Qed.

(** ** The walks, from the root and from inside the tree *)

(** The objects that [build] makes for a tree value are a tree of objects
    with no node object twice, and the tree value is read back from them.
    Where the stack has a frame for each node on the longest path, the
    default walk from the root yields the node objects with each one before
    its descendants and leaves the store as it is; with three frames more
    the post-order walk yields them with each one after its descendants,
    and changes no object that was there. *)
Theorem walk_build (frames : nat) (n : Node) (st : store) :
  let a := (build n st).1 in
  let st' := (build n st).2 in
  exists t,
    forget t = n /\ root t = a /\ is_tree st' t /\ NoDup (preorder t)
    /\ (height n <= frames ->
        walk frames st' a None = Return (preorder t, st'))
    /\ (height n + 3 <= frames ->
        exists st'', walk frames st' a (Some (text "postorder"))
                     = Return (postorder t, st'')
                     /\ st' ⊆ st'').
Proof.
  intros a st'. subst a st'.
  destruct (build_is_tree n st) as (t & <- & <- & Htree & Hnd & _ & _).
  exists t. split; [done|]. split; [done|]. split; [done|]. split; [done|].
  rewrite <- depth_forget. split; intros Hroom.
  - by apply walk_default_store.
  - by apply walk_postorder_store.
Qed.

Lemma subtrees_infix (s t : ltree) :
  s ∈ subtrees t ->
  (exists l1 l2, preorder t = l1 ++ preorder s ++ l2)
  /\ (exists l1 l2, postorder t = l1 ++ postorder s ++ l2)
  /\ (forall x, x ∈ subtrees s -> x ∈ subtrees t).
Proof.
  induction t as [a nm ln l cs IH] using ltree_ind'.
  cbn [subtrees children]. intros [->|Hin]%elem_of_cons.
  { split; [by exists [], []; rewrite app_nil_r|].
    split; [by exists [], []; rewrite app_nil_r | done]. }
  apply list_elem_of_In, in_concat in Hin as (ss & Hss & Hin).
  apply in_map_iff in Hss as (c & <- & Hc).
  apply in_split in Hc as (cs1 & cs2 & ->).
  apply Forall_app in IH as [_ [IHc _]%Forall_cons].
  destruct (IHc (proj2 (list_elem_of_In _ _) Hin))
    as ((p1 & p2 & Hp) & (q1 & q2 & Hq) & Hsub).
  cbn [preorder postorder children root].
  rewrite !map_app, !concat_app. cbn [map concat]. rewrite Hp, Hq.
  split; [|split].
  - exists (a :: concat (map preorder cs1) ++ p1),
           (p2 ++ concat (map preorder cs2)).
    cbn [app]. by rewrite <- !app_assoc.
  - exists (concat (map postorder cs1) ++ q1),
           (q2 ++ concat (map postorder cs2) ++ [a]).
    by rewrite <- !app_assoc.
  - intros x Hx. apply elem_of_cons. right.
    rewrite !elem_of_app. right. left. by apply Hsub.
Qed.

Lemma depth_subtree (s t : ltree) : s ∈ subtrees t -> depth s <= depth t.
Proof.
  induction t as [a nm ln l cs IH] using ltree_ind'.
  cbn [subtrees children]. intros [->|Hin]%elem_of_cons; [done|].
  apply list_elem_of_In, in_concat in Hin as (ss & Hss & Hin).
  apply in_map_iff in Hss as (c & <- & Hc).
  rewrite Forall_forall in IH.
  specialize (IH c (proj2 (list_elem_of_In _ _) Hc)
                 (proj2 (list_elem_of_In _ _) Hin)).
  cbn [depth children].
  assert (depth c <= max_list (map depth cs)); [|lia].
  apply max_list_elem_of_le, list_elem_of_fmap. exists c.
  split; [done | by apply list_elem_of_In].
Qed.

(** A walk that starts at a node inside a tree yields a run of consecutive
    nodes of the walk from the root, in the default order and in
    post-order, where the stack has room for the walks from the root. *)
Theorem walk_subtree (frames : nat) (st : store) (t s : ltree) :
  is_tree st t -> NoDup (preorder t) -> s ∈ subtrees t ->
  depth t + 3 <= frames ->
  (exists l1 r l2,
     walk frames st (root t) None = Return (l1 ++ r ++ l2, st)
     /\ walk frames st (root s) None = Return (r, st))
  /\ (exists l1 r l2 st1 st2,
        walk frames st (root t) (Some (text "postorder"))
        = Return (l1 ++ r ++ l2, st1)
        /\ walk frames st (root s) (Some (text "postorder"))
           = Return (r, st2)).
Proof.
  intros Htree Hnd Hs Hroom.
  pose proof (depth_subtree s t Hs) as Hdepth.
  destruct (subtrees_infix s t Hs) as ((p1 & p2 & Hp) & (q1 & q2 & Hq) & Hsub).
  assert (is_tree st s) as Htree_s.
  { unfold is_tree in *. rewrite Forall_forall in Htree |- *.
    intros x Hx. by apply Htree, Hsub. }
  assert (NoDup (preorder s)) as Hnd_s.
  { rewrite Hp in Hnd. apply NoDup_app in Hnd as (_ & _ & Hnd).
    by apply NoDup_app in Hnd as (Hnd & _ & _). }
  split.
  - exists p1, (preorder s), p2. rewrite <- Hp.
    split; apply walk_default_store; (done || lia).
  - destruct (walk_postorder_store frames st t Htree Hnd) as (st1 & Hw1 & _);
      [lia|].
    destruct (walk_postorder_store frames st s Htree_s Hnd_s)
      as (st2 & Hw2 & _); [lia|].
    exists q1, (postorder s), q2, st1, st2. by rewrite <- Hq.
Qed.

Lemma walk_subtree_witness :
  let st := (build tree_e ∅).2 in
  (exists l1 r l2,
     walk 6 st 10%positive None = Return (l1 ++ r ++ l2, st)
     /\ walk 6 st 8%positive None = Return (r, st))
  /\ (exists l1 r l2 st1 st2,
        walk 6 st 10%positive (Some (text "postorder"))
        = Return (l1 ++ r ++ l2, st1)
        /\ walk 6 st 8%positive (Some (text "postorder")) = Return (r, st2)).
Proof.
  intros st.
  apply (walk_subtree 6 st ltree_e
           (LNode 8 (Some (text "d")) None 7
              [LNode 4 (Some (text "b")) None 3 [];
               LNode 6 (Some (text "c")) None 5 []])%positive).
  - unfold is_tree. cbn [ltree_e subtrees children map concat app].
    repeat (apply Forall_cons; split); [..|by apply Forall_nil];
      split; vm_compute; reflexivity.
  - apply (bool_decide_unpack (NoDup (preorder ltree_e))). vm_compute.
    exact I.
  - cbn [ltree_e subtrees children map concat app]. do 2 right. left.
  - vm_compute. lia.
Defined.

(** Nothing protects the walks from a deep tree: where the stack has fewer
    frames than the longest path of the tree has nodes, the default walk
    raises [RecursionError]; and so does the post-order walk where the stack
    has fewer than two frames more, although its loop is not recursive: it
    begins with [self.walk()], two generators down. *)
Theorem walk_RecursionError (frames : nat) (st : store) (t : ltree) :
  is_tree st t ->
  (frames < depth t -> walk frames st (root t) None = Raise RecursionError)
  /\ (frames < depth t + 2 ->
      walk frames st (root t) (Some (text "postorder"))
      = Raise RecursionError).
Proof.
  intros Htree. destruct (walk_store_RecursionError frames st t Htree)
    as [Hpre Hpost].
  split; [done|]. intros Hroom. apply Hpost. lia.
Qed.

Lemma walk_RecursionError_witness :
  let st := (build tree_e ∅).2 in
  walk 2 st 10%positive None = Raise RecursionError
  /\ walk 4 st 10%positive (Some (text "postorder")) = Raise RecursionError.
Proof.
  intros st. destruct (walk_RecursionError 2 st ltree_e) as [Hpre _].
  { by destruct holds_tree_e as (Htree & _). }
  destruct (walk_RecursionError 4 st ltree_e) as [_ Hpost].
  { by destruct holds_tree_e as (Htree & _). }
  split; [apply Hpre | apply Hpost]; vm_compute; lia.
Defined.

(** Whatever the store holds, with nodes shared between lists or not, a
    walk returns or finds the stack full (or, where a reference is to an
    object of the wrong kind, which Python does not build, fails on an
    attribute).  In post-order mode the loop never raises [KeyError], since
    every node that it looks up in the dictionary was yielded by
    [self.walk()]; it never pops from an empty list, since no node is among
    its own descendants where [self.walk()] has returned; and it always
    ends. *)
Theorem walk_outcomes (frames : nat) (st : store) (self : addr)
    (mode : option str) :
  (exists r, walk frames st self mode = Return r)
  \/ (exists e, walk frames st self mode = Raise e
                /\ (e = RecursionError \/ e = AttributeError)).
Proof. apply walk_runs. Qed.

(** ** Parsing undoes serialising *)

Lemma normal_Forall (n : Node) :
  normal n = true <->
  Forall (fun m => name m <> Some [] /\ length m <> Some []
                   /\ match descendants m with
                      | [d] => truthy (newick d) = true
                      | _ => True
                      end) (nodes n).
Proof.
  unfold normal. rewrite forallb_forall, List.Forall_forall.
  split; intros H m Hm; specialize (H m Hm).
  - apply andb_prop in H as [[Hn Hl]%andb_prop Hd].
    apply bool_decide_eq_true in Hn, Hl. split; [done|]. split; [done|].
    by destruct (descendants m) as [|d [|]].
  - destruct H as (Hn & Hl & Hd).
    rewrite !andb_true_iff, !bool_decide_eq_true. split; [done|].
    by destruct (descendants m) as [|d [|]].
Qed.

Lemma normal_reparse (n : Node) : normal n = true -> reparse n = n.
Proof.
  rewrite normal_Forall. induction n as [nm ln ds IH] using Node_ind'.
  intros [(Hn & Hl & Hd) Hds]%Forall_nodes.
  cbn [name length descendants] in Hn, Hl, Hd, Hds.
  cbn [reparse name length descendants].
  assert (map reparse ds = ds) as Hmap.
  { clear Hd. induction IH as [|d ds Hd _ IHds]; [done|].
    apply Forall_cons in Hds as [Hdn Hds]. cbn [map].
    by rewrite Hd, IHds. }
  rewrite Hmap. f_equal.
  - by destruct nm as [[|]|].
  - by destruct ln as [[|]|].
  - destruct ds as [|d [|d' ds]]; [done| |].
    + cbn [map join]. by rewrite Hd.
    + rewrite map_cons, join_cons by done. by destruct (newick d).
Qed.

Lemma parse_newick_normal (frames : nat) (T : Node) :
  constructed T -> trimmed_texts T = true -> normal T = true ->
  parse_room T <= frames ->
  parse_node frames (newick T) = Return T.
Proof.
  intros Hcon Htrim Hnormal Hroom.
  by rewrite parse_newick_room, decide_True, normal_reparse.
Qed.

(** [parse_node] undoes [newick]: for a tree built by valid constructions,
    with no serialisation of a subtree that begins or ends with white
    space, with no empty name or length and no single descendant that
    serialises to the empty text, parsing the serialisation gives the tree
    itself, where the stack has room for it. *)
Theorem parse_newick_inverse (frames : nat) (T : Node) :
  constructed T -> trimmed_texts T = true -> normal T = true ->
  parse_room T <= frames ->
  parse_node frames (newick T) = Return T.
Proof. apply parse_newick_normal. Qed.

Lemma parse_newick_inverse_witness :
  let T := mkNode (Some (text " e")) None
             [leaf "a";
              mkNode (Some (text "d e")) (Some (text "1.5"))
                [leaf "b"; mkNode None (Some (text "2")) []]] in
  parse_node 5 (newick T) = Return T.
Proof.
  intros T. apply (parse_newick_inverse 5 T); [|by vm_compute..].
  apply constructed_check. by vm_compute.
Defined.

(** Two such trees that differ have different serialisations. *)
Theorem newick_injective (T1 T2 : Node) :
  constructed T1 -> trimmed_labels T1 = true -> normal T1 = true ->
  constructed T2 -> trimmed_labels T2 = true -> normal T2 = true ->
  T1 <> T2 -> newick T1 <> newick T2.
Proof.
  intros Hc1 Ht1%trimmed_labels_texts Hn1 Hc2 Ht2%trimmed_labels_texts Hn2
         Hne Heq.
  apply Hne. set (frames := parse_room T1 + parse_room T2).
  pose proof (parse_newick_normal frames T1 Hc1 Ht1 Hn1) as H1.
  pose proof (parse_newick_normal frames T2 Hc2 Ht2 Hn2) as H2.
  rewrite Heq, H2 in H1 by (unfold frames; lia).
  by injection H1; [|unfold frames; lia].
Qed.

Lemma newick_injective_witness :
  let T := mkNode (Some (text "e")) None
             [mkNode (Some (text "d")) None [leaf "b"; leaf "c"]; leaf "a"] in
  newick tree_e <> newick T.
Proof.
  intros T. apply (newick_injective tree_e T); try by vm_compute.
  - apply constructed_check. by vm_compute.
  - apply constructed_check. by vm_compute.
Defined.

(** ** Trees nested deeper than the stack *)

(** The serialisation of a tree built by valid constructions, with no
    white space at the ends of the serialisation of a subtree, makes
    [parse_node] raise [RecursionError] where the stack has fewer frames
    than two for each level of parentheses and one more. *)
Theorem parse_newick_RecursionError (frames : nat) (T : Node) :
  constructed T -> trimmed_texts T = true -> frames < parse_room T ->
  parse_node frames (newick T) = Raise RecursionError.
Proof.
  intros Hcon Htrim Hroom. by rewrite parse_newick_room, decide_False by (done || lia).
Qed.

Lemma parse_newick_RecursionError_witness :
  parse_node 4 (newick (chain 2)) = Raise RecursionError.
Proof.
  apply parse_newick_RecursionError; [|by vm_compute|vm_compute; lia].
  apply constructed_check. by vm_compute.
Defined.
